(** * simple-io: the game-state route and the client predictor

    A shallow embedding of [src/app/page.tsx]: the server route that owns
    the shared [gameState] (handlers [GET] and [POST], the reaper
    [cleanupPlayers], the food generator), the two client callbacks
    that move the local player ([gameLoop]) and talk to the server
    ([updateGame]), and the component that makes and calls them
    ([connectToGame], [startGameUpdates] and the handlers of the
    screens).

    Conventions.
    - [Date.now()] and [Math.random()] are the only sources of
      non-determinism on the server.  Both are read from an oracle that is
      part of the threaded store: every call consumes one reading.
    - Timestamps and scores are integer-valued doubles far below 2^53, on
      which the arithmetic used here ([-], [+ 1], [>]) is exact: they are
      [Z].
    - Coordinates are JavaScript numbers.  The server only compares and
      selects them ([Math.min], [Math.max]), which is exact on doubles, so
      a finite coordinate is a rational and the three special values are
      kept apart.  Products such as [Math.random() * 780] are taken in [Q];
      the rounding of that product is not modelled.
    - A JavaScript [Map] iterates in insertion order: it is an association
      list, [set] replacing in place and appending new keys.
    - On the client a coordinate is a rational, and sums are exact; what
      this leaves out is said at [gameLoop] and [touches]. *)

From Stdlib Require Import ZArith QArith Qround Qminmax List String Bool Lia.
From Stdlib Require Import DecimalString Lqa.
Import ListNotations.
Open Scope Z_scope.
Open Scope string_scope.

(** ** JavaScript numbers *)

Inductive number : Type :=
| Num (q : Q)
| PosInfinity
| NegInfinity
| NaN.

(** [Math.min(a, b)]: NaN if either argument is NaN. *)
Definition Math_min (a b : number) : number :=
  match a, b with
  | NaN, _ | _, NaN => NaN
  | NegInfinity, _ | _, NegInfinity => NegInfinity
  | PosInfinity, n | n, PosInfinity => n
  | Num p, Num q => if Qle_bool p q then Num p else Num q
  end.

(** [Math.max(a, b)]. *)
Definition Math_max (a b : number) : number :=
  match a, b with
  | NaN, _ | _, NaN => NaN
  | PosInfinity, _ | _, PosInfinity => PosInfinity
  | NegInfinity, n | n, NegInfinity => n
  | Num p, Num q => if Qle_bool p q then Num q else Num p
  end.

(** A finite number inside the closed interval [[lo, hi]]. *)
Definition within (lo hi : Q) (n : number) : Prop :=
  match n with
  | Num q => (lo <= q /\ q <= hi)%Q
  | _ => False
  end.

(** A value that JSON can carry as a number: anything but NaN (a literal
    too large for a double parses to an infinity). *)
Definition is_number (n : number) : Prop := n <> NaN.

(** ** Constants of the route *)

Definition CANVAS_WIDTH : Z := 800.
Definition CANVAS_HEIGHT : Z := 600.
Definition PLAYER_SIZE : Z := 20.
Definition FOOD_SIZE : Z := 8.
Definition FOOD_COUNT : nat := 50.
Definition PLAYER_TIMEOUT : Z := 10000.

(** ** Records *)

Module Player.
Record t : Type := mk {
  id : string;
  username : string;
  x : number;
  y : number;
  color : string;
  score : Z;
  lastUpdate : Z
}.

Definition set_x (v : number) (p : t) : t :=
  mk (id p) (username p) v (y p) (color p) (score p) (lastUpdate p).
Definition set_y (v : number) (p : t) : t :=
  mk (id p) (username p) (x p) v (color p) (score p) (lastUpdate p).
Definition set_score (v : Z) (p : t) : t :=
  mk (id p) (username p) (x p) (y p) (color p) v (lastUpdate p).
Definition set_lastUpdate (v : Z) (p : t) : t :=
  mk (id p) (username p) (x p) (y p) (color p) (score p) v.
End Player.

Module Food.
Record t : Type := mk {
  id : string;
  x : number;
  y : number;
  color : string
}.
End Food.

(** ** Insertion-ordered maps with string keys

    Used for the server's [Map<string, Player>] and for the client's
    [Record<string, Player>]. *)

Fixpoint Map_get {V : Type} (k : string) (m : list (string * V)) : option V :=
  match m with
  | [] => None
  | (k', v) :: m' => if String.eqb k' k then Some v else Map_get k m'
  end.

Definition Map_has {V : Type} (k : string) (m : list (string * V)) : bool :=
  match Map_get k m with Some _ => true | None => false end.

(** [set] keeps the position of a key that is already there. *)
Fixpoint Map_set {V : Type} (k : string) (v : V) (m : list (string * V))
  : list (string * V) :=
  match m with
  | [] => [(k, v)]
  | (k', v') :: m' =>
      if String.eqb k' k then (k, v) :: m' else (k', v') :: Map_set k v m'
  end.

Definition Map_delete {V : Type} (k : string) (m : list (string * V))
  : list (string * V) :=
  filter (fun kv => negb (String.eqb (fst kv) k)) m.

Definition Map_keys {V : Type} (m : list (string * V)) : list string :=
  map fst m.
Definition Map_values {V : Type} (m : list (string * V)) : list V :=
  map snd m.

(** Keys of a map are pairwise distinct. *)
Definition Map_wf {V : Type} (m : list (string * V)) : Prop :=
  NoDup (Map_keys m).

Definition PlayerMap : Type := list (string * Player.t).

Module GameState.
Record t : Type := mk {
  players : PlayerMap;
  food : list Food.t;
  lastUpdate : Z
}.

Definition set_players (v : PlayerMap) (g : t) : t :=
  mk v (food g) (lastUpdate g).
Definition set_food (v : list Food.t) (g : t) : t :=
  mk (players g) v (lastUpdate g).
Definition set_lastUpdate (v : Z) (g : t) : t :=
  mk (players g) (food g) v.
End GameState.

(** ** The store threaded through the handlers *)

Record Server : Type := mkServer {
  clock : nat -> Z;        (* successive readings of Date.now() *)
  ticks : nat;             (* readings consumed so far *)
  entropy : nat -> Q;      (* successive results of Math.random() *)
  draws : nat;             (* results consumed so far *)
  gameState : GameState.t
}.

Definition M (A : Type) : Type := Server -> A * Server.

Definition ret {A : Type} (a : A) : M A := fun s => (a, s).

Definition bind {A B : Type} (m : M A) (k : A -> M B) : M B :=
  fun s => let r := m s in k (fst r) (snd r).

Declare Scope js_scope.
Delimit Scope js_scope with js.
Notation "x <- m ;; k" := (bind m (fun x => k))
  (at level 61, m at next level, right associativity) : js_scope.
Notation "m ;; k" := (bind m (fun _ => k))
  (at level 61, right associativity) : js_scope.
Open Scope js_scope.

Definition Date_now : M Z :=
  fun s => (clock s (ticks s),
            mkServer (clock s) (S (ticks s)) (entropy s) (draws s) (gameState s)).

Definition Math_random : M Q :=
  fun s => (entropy s (draws s),
            mkServer (clock s) (ticks s) (entropy s) (S (draws s)) (gameState s)).

Definition read : M GameState.t := fun s => (gameState s, s).

Definition modify (f : GameState.t -> GameState.t) : M unit :=
  fun s => (tt, mkServer (clock s) (ticks s) (entropy s) (draws s)
                         (f (gameState s))).

(** The reading that the next call of [Date.now()] returns. *)
Definition next_now (s : Server) : Z := clock s (ticks s).

(** [Array.from({ length: n }, () => gen())]. *)
Fixpoint Array_from {A : Type} (n : nat) (gen : M A) : M (list A) :=
  match n with
  | O => ret []
  | S n' => a <- gen ;; l <- Array_from n' gen ;; ret (a :: l)
  end.

(** [colors[Math.floor(r * colors.length)]]; [r] lies in [[0, 1)], so the
    index is in range and the default is never returned. *)
Definition pick (colors : list string) (r : Q) : string :=
  nth (Z.to_nat (Qfloor (r * inject_Z (Z.of_nat (List.length colors)))))
      colors "undefined".

(** ** The route: [generateFood], [cleanupPlayers], [GET], [POST] *)

(** Body of a [POST] request as [request.json()] returns it: one
    constructor per [data.type] that the switch knows, one for every
    other value of [data.type], and [null] for the body that is the JSON
    value null, on which reading [data.type] throws.  Numeric fields hold
    the number that [Math.min] sees after its conversion of the JSON
    value: a field that is missing or not numeric arrives as [NaN]. *)
Inductive Body : Type :=
| join (playerId username : string)
| move (playerId : string) (x y : number)
| collectFood (playerId foodId : string)
| heartbeat (playerId : string)
| leave (playerId : string)
| other (type : string)
| null.

(** What [NextResponse.json] is given. *)
Inductive Response : Type :=
| Joined (player : Player.t)                     (* { success: true, player } *)
| Success (success : bool)                       (* { success } *)
| Collected (newFood : Food.t) (playerScore : Z) (* { success: true, newFood, playerScore } *)
| Failed (error : string) (status : Z).          (* { error }, { status } *)

(** A player as [GET] publishes it. *)
Record PublicPlayer : Type := mkPublic {
  pub_id : string;
  pub_username : string;
  pub_x : number;
  pub_y : number;
  pub_color : string;
  pub_score : Z
}.

Record Snapshot : Type := mkSnapshot {
  snap_players : list PublicPlayer;
  snap_food : list Food.t;
  snap_lastUpdate : Z
}.

Definition publish (p : Player.t) : PublicPlayer :=
  mkPublic (Player.id p) (Player.username p) (Player.x p) (Player.y p)
           (Player.color p) (Player.score p).

Definition playerColors : list string :=
  ["#FF6B6B"; "#4ECDC4"; "#45B7D1"; "#96CEB4";
   "#FFEAA7"; "#DDA0DD"; "#98D8C8"; "#F7DC6F"].

Definition foodColors : list string :=
  ["#FF4757"; "#2ED573"; "#3742FA"; "#FF6348"; "#FFA502"].

(** [food.findIndex((f) => f.id === foodId)], [None] standing for [-1]. *)
Fixpoint findIndex (foodId : string) (l : list Food.t) : option nat :=
  match l with
  | [] => None
  | f :: l' =>
      if String.eqb (Food.id f) foodId then Some O
      else option_map S (findIndex foodId l')
  end.

(** [food.splice(i, 1)]. *)
Definition splice1 {A : Type} (i : nat) (l : list A) : list A :=
  firstn i l ++ skipn (S i) l.

(** A player whom the reaper removes at time [now]. *)
Definition stale (now : Z) (p : Player.t) : bool :=
  now - Player.lastUpdate p >? PLAYER_TIMEOUT.

Section Route.

(** Conversion of a number to a string inside a template literal.  The
    route only compares the strings it builds, so the digits are left
    to the caller. *)
Variable toString : Q -> string.

Definition generateColor : M string :=
  r <- Math_random ;;
  ret (pick playerColors r).

Definition generateFood : M Food.t :=
  t <- Date_now ;;
  r <- Math_random ;;
  rx <- Math_random ;;
  ry <- Math_random ;;
  rc <- Math_random ;;
  ret (Food.mk ("food-" ++ toString (inject_Z t) ++ "-" ++ toString r)
               (Num (rx * inject_Z (CANVAS_WIDTH - FOOD_SIZE)))
               (Num (ry * inject_Z (CANVAS_HEIGHT - FOOD_SIZE)))
               (pick foodColors rc)).

Definition initializeFood : M unit :=
  g <- read ;;
  if Nat.eqb (List.length (GameState.food g)) 0 then
    fresh <- Array_from FOOD_COUNT generateFood ;;
    modify (GameState.set_food fresh)
  else ret tt.

Definition cleanupPlayers : M unit :=
  now <- Date_now ;;
  g <- read ;;
  let playersToRemove :=
    map fst (filter (fun kv => stale now (snd kv)) (GameState.players g)) in
  modify (fun g =>
    GameState.set_players
      (fold_left (fun m id => Map_delete id m) playersToRemove
                 (GameState.players g)) g) ;;
  if Nat.ltb 0 (List.length playersToRemove) then
    modify (GameState.set_lastUpdate now)
  else ret tt.

Definition GET : M Snapshot :=
  cleanupPlayers ;;
  g <- read ;;
  let playersData := map publish (Map_values (GameState.players g)) in
  ret (mkSnapshot playersData (GameState.food g) (GameState.lastUpdate g)).

(** [Math.max(0, Math.min(limit, v))]. *)
Definition clamp (limit : Z) (v : number) : number :=
  Math_max (Num 0) (Math_min (Num (inject_Z limit)) v).

(** The switch of [POST], entered once the body is parsed and [now] is
    read.  On the body null the switch throws before any case is
    entered, and the [catch] of [POST] answers. *)
Definition dispatch (data : Body) (now : Z) : M Response :=
  match data with
  | join playerId username =>
      initializeFood ;;
      rx <- Math_random ;;
      ry <- Math_random ;;
      c <- generateColor ;;
      let newPlayer :=
        Player.mk playerId username
                  (Num (rx * inject_Z (CANVAS_WIDTH - PLAYER_SIZE)))
                  (Num (ry * inject_Z (CANVAS_HEIGHT - PLAYER_SIZE)))
                  c 0 now in
      modify (fun g =>
        GameState.set_players (Map_set playerId newPlayer (GameState.players g)) g) ;;
      modify (GameState.set_lastUpdate now) ;;
      ret (Joined newPlayer)
  | move playerId x y =>
      g <- read ;;
      match Map_get playerId (GameState.players g) with
      | Some player =>
          let newX := clamp (CANVAS_WIDTH - PLAYER_SIZE) x in
          let newY := clamp (CANVAS_HEIGHT - PLAYER_SIZE) y in
          let player :=
            Player.set_lastUpdate now
              (Player.set_y newY (Player.set_x newX player)) in
          modify (fun g =>
            GameState.set_players (Map_set playerId player (GameState.players g)) g) ;;
          modify (GameState.set_lastUpdate now)
      | None => ret tt
      end ;;
      ret (Success true)
  | collectFood playerId foodId =>
      g <- read ;;
      match Map_get playerId (GameState.players g) with
      | Some player =>
          match findIndex foodId (GameState.food g) with
          | Some foodIndex =>
              modify (fun g =>
                GameState.set_food (splice1 foodIndex (GameState.food g)) g) ;;
              let player :=
                Player.set_lastUpdate now
                  (Player.set_score (Player.score player + 1) player) in
              modify (fun g =>
                GameState.set_players
                  (Map_set playerId player (GameState.players g)) g) ;;
              newFood <- generateFood ;;
              modify (fun g =>
                GameState.set_food (GameState.food g ++ [newFood])%list g) ;;
              modify (GameState.set_lastUpdate now) ;;
              ret (Collected newFood (Player.score player))
          | None => ret (Success false)
          end
      | None => ret (Success false)
      end
  | heartbeat playerId =>
      g <- read ;;
      match Map_get playerId (GameState.players g) with
      | Some player =>
          modify (fun g =>
            GameState.set_players
              (Map_set playerId (Player.set_lastUpdate now player)
                       (GameState.players g)) g)
      | None => ret tt
      end ;;
      ret (Success true)
  | leave playerId =>
      g <- read ;;
      (if Map_has playerId (GameState.players g) then
         modify (fun g =>
           GameState.set_players (Map_delete playerId (GameState.players g)) g) ;;
         modify (GameState.set_lastUpdate now)
       else ret tt) ;;
      ret (Success true)
  | other _ => ret (Failed "Unknown action" 400)
  | null => ret (Failed "Internal server error" 500)
  end.

(** [POST]; [None] is a request whose body [request.json()] rejects,
    which the [catch] turns into the 500 answer before the clock is
    read.  The body null gets the same answer after the clock is read. *)
Definition POST (request : option Body) : M Response :=
  match request with
  | Some data =>
      now <- Date_now ;;
      dispatch data now
  | None => ret (Failed "Internal server error" 500)
  end.

End Route.

(** ** The client: [gameLoop] and [updateGame]

    The component keeps its data in React state and in refs; here they
    are the fields of one record that each callback transforms.  Requests
    handed to [apiCall] are returned as a trace, and what the server
    answers is an argument of the callback.  Coordinates on the client are
    the finite numbers of a snapshot, rationals here. *)

Module Client.

Definition MOVE_SPEED : Z := 3.
Definition UPDATE_INTERVAL : Z := 100.

Record Player : Type := mkPlayer {
  id : string;
  username : string;
  x : Q;
  y : Q;
  color : string;
  score : Z
}.

Record Food : Type := mkFood {
  food_id : string;
  food_x : Q;
  food_y : Q;
  food_color : string
}.

Inductive Screen : Type := login | connecting | playing | disconnected.
Inductive Connection : Type := conn_connecting | conn_connected | conn_disconnected.

(** A call of [apiCall("/api/game-state", data)]. *)
Inductive Request : Type :=
| get_state
| post_move (playerId : string) (x y : Q)
| post_collectFood (playerId foodId : string)
| post_join (playerId username : string)
| post_leave (playerId : string).

(** The body of a successful [GET]. *)
Record GameData : Type := mkGameData {
  data_players : list Player;
  data_food : list Food;
  data_lastUpdate : Z
}.

Record t : Type := mk {
  gameState : Screen;
  players : list (string * Player);
  food : list Food;
  myPlayerId : string;
  connectionStatus : Connection;
  lastServerUpdate : Z;
  keysRef : list string;
  lastPositionRef : Q * Q;
  movementQueueRef : option (Q * Q)
}.

Definition set_connectionStatus (v : Connection) (c : t) : t :=
  mk (gameState c) (players c) (food c) (myPlayerId c) v
     (lastServerUpdate c) (keysRef c) (lastPositionRef c) (movementQueueRef c).

Definition set_movementQueueRef (v : option (Q * Q)) (c : t) : t :=
  mk (gameState c) (players c) (food c) (myPlayerId c) (connectionStatus c)
     (lastServerUpdate c) (keysRef c) (lastPositionRef c) v.

(** [keysRef.current.has(k)]. *)
Definition pressed (k : string) (c : t) : bool :=
  existsb (String.eqb k) (keysRef c).

Definition Qltb (a b : Q) : bool := negb (Qle_bool b a).

(** [a !== b] on finite numbers. *)
Definition differs (a b : Q) : bool := negb (Qeq_bool a b).

(** The collision test of [gameLoop].  The source compares the square
    root of the squared distance with the sum of the radii; here the
    squares are compared, in exact arithmetic.  The rounding of the
    squares, of their sum and of the root is not modelled, so an item
    whose distance is within rounding of the threshold may fall on the
    other side in the source; no statement below looks at which items a
    frame collects. *)
Definition touches (newX newY : Q) (f : Food) : bool :=
  let half_player := (inject_Z PLAYER_SIZE / 2)%Q in
  let half_food := (inject_Z FOOD_SIZE / 2)%Q in
  let dx := (newX + half_player - (food_x f + half_food))%Q in
  let dy := (newY + half_player - (food_y f + half_food))%Q in
  Qltb (dx * dx + dy * dy)
       ((half_player + half_food) * (half_player + half_food)).

(** One frame of [gameLoop], together with the guard of the effect that
    schedules it.  The result carries the requests fired in the frame.
    [newX + MOVE_SPEED] and [newY - MOVE_SPEED] are taken in exact
    arithmetic; the source rounds each of them to a double, so the size
    of a step is not exactly 3 there.  The statements below hold of the
    rounded sums as well: they rely on [Math.min] and [Math.max], which
    select one of their arguments, on the rounded sum being no smaller
    and the rounded difference no larger than the coordinate, and on
    steps from integer positions, which are exact. *)
Definition gameLoop (c : t) : t * list Request :=
  match gameState c, String.eqb (myPlayerId c) "",
        Map_get (myPlayerId c) (players c) with
  | playing, false, Some myPlayer =>
      let newX := x myPlayer in
      let newY := y myPlayer in
      let moved := false in
      let up := pressed "w" c || pressed "arrowup" c in
      let newY := if up then Qmax 0 (newY - inject_Z MOVE_SPEED) else newY in
      let moved := up || moved in
      let down := pressed "s" c || pressed "arrowdown" c in
      let newY :=
        if down
        then Qmin (inject_Z (CANVAS_HEIGHT - PLAYER_SIZE)) (newY + inject_Z MOVE_SPEED)
        else newY in
      let moved := down || moved in
      let left := pressed "a" c || pressed "arrowleft" c in
      let newX := if left then Qmax 0 (newX - inject_Z MOVE_SPEED) else newX in
      let moved := left || moved in
      let right := pressed "d" c || pressed "arrowright" c in
      let newX :=
        if right
        then Qmin (inject_Z (CANVAS_WIDTH - PLAYER_SIZE)) (newX + inject_Z MOVE_SPEED)
        else newX in
      let moved := right || moved in
      let c' :=
        if moved && (differs newX (fst (lastPositionRef c))
                     || differs newY (snd (lastPositionRef c)))
        then
          mk (gameState c)
             (Map_set (myPlayerId c)
                      (mkPlayer (id myPlayer) (username myPlayer) newX newY
                                (color myPlayer) (score myPlayer))
                      (players c))
             (food c) (myPlayerId c) (connectionStatus c)
             (lastServerUpdate c) (keysRef c)
             (newX, newY) (Some (newX, newY))
        else c in
      let fired :=
        map (fun f => post_collectFood (myPlayerId c) (food_id f))
            (filter (touches newX newY) (food c)) in
      (c', fired)
  | _, _, _ => (c, [])
  end.

(** [playersMap[player.id] = player] for every player of a snapshot.
    The object serves as a lookup table, and that is what this list
    models: the order in which a JavaScript object enumerates its keys
    (integer-like keys come first) is not represented, and neither is
    the id [__proto__], which creates no key.  The statements below look
    players up by id and leave that id out. *)
Definition playersMap (l : list Player) : list (string * Player) :=
  fold_left (fun m p => Map_set (id p) p m) l [].

(** One run of [updateGame].  [capturedId] and [capturedUpdate] are the
    values of [myPlayerId] and [lastServerUpdate] that the closure holds;
    which values these are in the running component is settled by
    [Component] below.  [posted] tells whether the [POST] of the pending
    move resolves, and [fetched] is the answer to the [GET], [None] when
    that call throws. *)
Definition updateGame (capturedId : string) (capturedUpdate : Z)
           (posted : bool) (fetched : option GameData) (c : t)
  : t * list Request :=
  let pending :=
    match movementQueueRef c with
    | Some q => if String.eqb capturedId "" then None else Some q
    | None => None
    end in
  let sent1 :=
    match pending with
    | Some (qx, qy) => [post_move capturedId qx qy]
    | None => []
    end in
  let failed1 :=
    match pending with Some _ => negb posted | None => false end in
  if failed1 then (set_connectionStatus conn_disconnected c, sent1)
  else
    let c1 :=
      match pending with
      | Some _ => set_movementQueueRef None c
      | None => c
      end in
    match fetched with
    | None => (set_connectionStatus conn_disconnected c1, (sent1 ++ [get_state])%list)
    | Some gameData =>
        let c2 :=
          if data_lastUpdate gameData >? capturedUpdate then
            mk (gameState c1) (playersMap (data_players gameData))
               (data_food gameData) (myPlayerId c1) (connectionStatus c1)
               (data_lastUpdate gameData) (keysRef c1)
               (lastPositionRef c1) (movementQueueRef c1)
          else c1 in
        (set_connectionStatus conn_connected c2, (sent1 ++ [get_state])%list)
    end.

(** The moves among the requests of a trace. *)
Definition moves (l : list Request) : list (Q * Q) :=
  flat_map (fun r => match r with
                     | post_move _ mx my => [(mx, my)]
                     | _ => []
                     end) l.

End Client.

(** ** Vocabulary of the statements *)

(** Module initialisation: an empty world stamped with the first reading
    of the clock. *)
Definition boot (clk : nat -> Z) (rnd : nat -> Q) : Server :=
  mkServer clk 1 rnd 0 (GameState.mk [] [] (clk O)).

(** The answer of a handler and the world it leaves behind. *)
Definition answer {A : Type} (m : M A) (s : Server) : A := fst (m s).
Definition world {A : Type} (m : M A) (s : Server) : GameState.t :=
  gameState (snd (m s)).

(** The store once [POST] has read the clock. *)
Definition ticked (s : Server) : Server := snd (Date_now s).

(** A store with another world. *)
Definition with_world (g : GameState.t) (s : Server) : Server :=
  mkServer (clock s) (ticks s) (entropy s) (draws s) g.

(** The synchronisation token of a store. *)
Definition counter (s : Server) : Z := GameState.lastUpdate (gameState s).

(** The requests that [POST] answers by changing the world [g]. *)
Definition changes (g : GameState.t) (request : option Body) : bool :=
  match request with
  | Some (join _ _) => true
  | Some (move playerId _ _) => Map_has playerId (GameState.players g)
  | Some (collectFood playerId foodId) =>
      Map_has playerId (GameState.players g)
      && match findIndex foodId (GameState.food g) with
         | Some _ => true
         | None => false
         end
  | Some (leave playerId) => Map_has playerId (GameState.players g)
  | Some (heartbeat _) | Some (other _) | Some null | None => false
  end.

(** Some player is due for eviction at time [now]. *)
Definition reaps (now : Z) (g : GameState.t) : bool :=
  existsb (stale now) (Map_values (GameState.players g)).

(** The field-bound invariant of a stored player. *)
Definition in_field (p : Player.t) : Prop :=
  within 0 (inject_Z (CANVAS_WIDTH - PLAYER_SIZE)) (Player.x p)
  /\ within 0 (inject_Z (CANVAS_HEIGHT - PLAYER_SIZE)) (Player.y p).

(** The server answering a sequence of requests one after the other:
    each answer, with the store it leaves. *)
Fixpoint serve (handler : option Body -> M Response)
         (requests : list (option Body)) (s : Server)
  : list (Response * Server) :=
  match requests with
  | [] => []
  | r :: rest =>
      let out := handler r s in
      out :: serve handler rest (snd out)
  end.

(** The pending moves of a client: the content of the one-slot queue. *)
Definition pending (c : Client.t) : list (Q * Q) :=
  match Client.movementQueueRef c with
  | Some p => [p]
  | None => []
  end.

(** ** Scenarios *)

(** A clock for four requests: the module loads at 1000, the first join
    (which also fills the food pool) is served at 2000, the second at
    3000, and everything after that within the millisecond 4000. *)
Definition same_millisecond (n : nat) : Z :=
  if Nat.ltb n 1 then 1000
  else if Nat.ltb n 52 then 2000
  else if Nat.eqb n 52 then 3000
  else 4000.

(** A rendering of numbers for the scenarios: an integer in decimal, any
    other rational as numerator/denominator. *)
Definition digits (q : Q) : string :=
  let show (z : Z) := NilZero.string_of_int (Z.to_int z) in
  match Qden q with
  | xH => show (Qnum q)
  | d => show (Qnum q) ++ "/" ++ show (Zpos d)
  end.

(** Results of [Math.random()] for the scenarios, all in [[0, 1)]. *)
Definition dice (n : nat) : Q := Z.of_nat (n mod 97) # 97.

(** Two players join and the first of them moves, on the clock [clk]. *)
Definition two_players (clk : nat -> Z) : Server :=
  let s0 := boot clk dice in
  let s1 := snd (POST digits (Some (join "a" "ann")) s0) in
  let s2 := snd (POST digits (Some (join "b" "bob")) s1) in
  snd (POST digits (Some (move "a" (Num 10) (Num 10))) s2).

(** The next request arrives within the millisecond of that move. *)
Definition two_players_moving : Server := two_players same_millisecond.

(** The same start, then silence until 13500: player a was last heard
    9500 ms ago, player b 10500 ms ago. *)
Definition quiet_clock (n : nat) : Z :=
  if Nat.ltb n 54 then same_millisecond n else 13500.

Definition two_players_gone_quiet : Server := two_players quiet_clock.

(** The same start, but the move of player a is served at 14000, and so
    is whatever follows: player b was last heard 11000 ms before. *)
Definition late_clock (n : nat) : Z :=
  if Nat.ltb n 53 then same_millisecond n else 14000.

Definition two_players_late_move : Server := two_players late_clock.


(** The client of player a at (2, 5), holding the key d. *)
Definition client_holding_d : Client.t :=
  Client.mk Client.playing
            [("a", Client.mkPlayer "a" "ann" 2 5 "#FF6B6B" 0)]
            [] "a" Client.conn_connected 4000 ["d"] (0, 0)%Q None.

(** ** Runs of the route *)

(** One request to the route. *)
Inductive Call : Type :=
| call_GET
| call_POST (request : option Body).

(** The store after the route has served one request. *)
Definition step (toString : Q -> string) (c : Call) (s : Server) : Server :=
  match c with
  | call_GET => snd (GET s)
  | call_POST request => snd (POST toString request s)
  end.

(** The store after a sequence of requests, served in order. *)
Definition run (toString : Q -> string) (calls : list Call) (s : Server)
  : Server :=
  fold_left (fun s c => step toString c s) calls s.

(** [Math.random()] returns numbers of [[0, 1)]. *)
Definition fair (rnd : nat -> Q) : Prop :=
  forall n, (0 <= rnd n /\ rnd n < 1)%Q.

(** A request whose coordinates, if it has any, are numbers. *)
Definition numeric (c : Call) : Prop :=
  match c with
  | call_POST (Some (move _ mx my)) => is_number mx /\ is_number my
  | _ => True
  end.

(** The field-bound invariant of a food item. *)
Definition food_in_field (f : Food.t) : Prop :=
  within 0 (inject_Z (CANVAS_WIDTH - FOOD_SIZE)) (Food.x f)
  /\ within 0 (inject_Z (CANVAS_HEIGHT - FOOD_SIZE)) (Food.y f).

(** A number that is finite and has the value [q]. *)
Definition has_value (n : number) (q : Q) : Prop :=
  match n with
  | Num q' => (q' == q)%Q
  | _ => False
  end.

(** What clamping a coordinate [v] into [[0, limit]] is to give: a value
    inside the interval is kept, a value below it (minus infinity
    included) becomes 0, a value above it (plus infinity included)
    becomes [limit]. *)
Definition clamped (limit : Z) (v stored : number) : Prop :=
  match v with
  | Num q =>
      ((q <= 0)%Q -> has_value stored 0)
      /\ ((0 <= q)%Q -> (q <= inject_Z limit)%Q -> has_value stored q)
      /\ ((inject_Z limit <= q)%Q -> has_value stored (inject_Z limit))
  | PosInfinity => has_value stored (inject_Z limit)
  | NegInfinity => has_value stored 0
  | NaN => True
  end.

(** ** The keyboard handlers of the client

    [keysRef] is a [Set]: adding a key that is there changes nothing.
    The lower-casing of [e.key] is left to the caller. *)

Section Keyboard.

Variable toLowerCase : string -> string.

Definition set_keysRef (v : list string) (c : Client.t) : Client.t :=
  Client.mk (Client.gameState c) (Client.players c) (Client.food c)
            (Client.myPlayerId c) (Client.connectionStatus c)
            (Client.lastServerUpdate c) v
            (Client.lastPositionRef c) (Client.movementQueueRef c).

Definition handleKeyDown (key : string) (c : Client.t) : Client.t :=
  let k := toLowerCase key in
  if Client.pressed k c then c
  else set_keysRef (Client.keysRef c ++ [k])%list c.

Definition handleKeyUp (key : string) (c : Client.t) : Client.t :=
  let k := toLowerCase key in
  set_keysRef (filter (fun k' => negb (String.eqb k k')) (Client.keysRef c)) c.

End Keyboard.

(** ** The component: callbacks made by [useCallback]

    [startGameUpdates] and [connectToGame] are made by [useCallback]: a
    render keeps the function of the render before it unless one of the
    listed dependencies has changed.  A function made in some render
    reads the constants of that render, whatever the state is when it is
    called: it is represented by the values that its body reads.  Every
    handler runs to its end before the next event is taken, and the
    component is rendered once the handler has set the state. *)

Module Component.

Import Client.

(** [startGameUpdates], and the [updateGame] that it defines: the body
    reads [myPlayerId] and [lastServerUpdate]. *)
Record startGameUpdates_closure : Type := mkStartGameUpdates {
  seen_myPlayerId : string;
  seen_lastServerUpdate : Z
}.

(** [connectToGame]: the body reads [username] and calls
    [startGameUpdates]. *)
Record connectToGame_closure : Type := mkConnectToGame {
  seen_username : string;
  seen_startGameUpdates : startGameUpdates_closure
}.

Record t : Type := mk {
  state : Client.t;                                 (* useState and useRef *)
  username : string;                                (* useState *)
  memo_connectToGame : connectToGame_closure;       (* useCallback, [username] *)
  memo_startGameUpdates : startGameUpdates_closure; (* useCallback, [myPlayerId, lastServerUpdate] *)
  updateIntervalRef : option startGameUpdates_closure (* the updateGame that setInterval calls *)
}.

(** [useCallback(..., [myPlayerId, lastServerUpdate])]. *)
Definition useCallback_startGameUpdates
           (prev : startGameUpdates_closure) (c : Client.t)
  : startGameUpdates_closure :=
  if String.eqb (myPlayerId c) (seen_myPlayerId prev)
     && Z.eqb (lastServerUpdate c) (seen_lastServerUpdate prev)
  then prev
  else mkStartGameUpdates (myPlayerId c) (lastServerUpdate c).

(** [useCallback(..., [username])]: a function made anew closes over the
    [startGameUpdates] of its render. *)
Definition useCallback_connectToGame
           (prev : connectToGame_closure) (username : string)
           (current : startGameUpdates_closure)
  : connectToGame_closure :=
  if String.eqb username (seen_username prev) then prev
  else mkConnectToGame username current.

(** A render on the state [c] and the name [username], after the render
    [prev]. *)
Definition render (c : Client.t) (username : string)
           (interval : option startGameUpdates_closure) (prev : t) : t :=
  let current := useCallback_startGameUpdates (memo_startGameUpdates prev) c in
  mk c username
     (useCallback_connectToGame (memo_connectToGame prev) username current)
     current interval.

(** A change of a ref: nothing is rendered. *)
Definition set_state (c : Client.t) (k : t) : t :=
  mk c (username k) (memo_connectToGame k) (memo_startGameUpdates k)
     (updateIntervalRef k).

(** The first render: initial state, and both functions made from it. *)
Definition mount : t :=
  let c := Client.mk login [] [] "" conn_disconnected 0 [] (0, 0)%Q None in
  let current := mkStartGameUpdates (myPlayerId c) (lastServerUpdate c) in
  mk c "" (mkConnectToGame "" current) current None.

(** [startGameUpdates()], called as the function [f]: the interval that
    runs is replaced by one for the [updateGame] of [f], after a first
    call of it. *)
Definition startGameUpdates (f : startGameUpdates_closure)
           (posted : bool) (fetched : option GameData) (k : t)
  : t * list Request :=
  let out :=
    updateGame (seen_myPlayerId f) (seen_lastServerUpdate f)
               posted fetched (state k) in
  (render (fst out) (username k) (Some f) k, snd out).

(** [connectToGame()], called as the function [f].  [playerId] is the
    string made from [Math.random()], [joined] tells whether the join
    is answered with success, and [posted] and [fetched] are the answers
    to the first [updateGame]. *)
Definition connectToGame (f : connectToGame_closure)
           (playerId : string) (joined : bool)
           (posted : bool) (fetched : option GameData) (k : t)
  : t * list Request :=
  let c := state k in
  let request := post_join playerId (seen_username f) in
  if joined then
    let c1 :=
      Client.mk playing (players c) (food c) playerId conn_connected
                (lastServerUpdate c) (keysRef c) (lastPositionRef c)
                (movementQueueRef c) in
    let k1 := render c1 (username k) (updateIntervalRef k) k in
    let out := startGameUpdates (seen_startGameUpdates f) posted fetched k1 in
    (fst out, request :: snd out)
  else
    let c1 :=
      Client.mk disconnected (players c) (food c) playerId conn_disconnected
                (lastServerUpdate c) (keysRef c) (lastPositionRef c)
                (movementQueueRef c) in
    (render c1 (username k) (updateIntervalRef k) k, [request]).

Section Handlers.

Variable trim : string -> string.
Variable toLowerCase : string -> string.

Definition handleJoinGame (playerId : string) (joined : bool)
           (posted : bool) (fetched : option GameData) (k : t)
  : t * list Request :=
  if String.eqb (trim (username k)) "" then (k, [])
  else connectToGame (memo_connectToGame k) playerId joined posted fetched k.

Definition handleReconnect (playerId : string) (joined : bool)
           (posted : bool) (fetched : option GameData) (k : t)
  : t * list Request :=
  connectToGame (memo_connectToGame k) playerId joined posted fetched k.

(** [handleLeaveGame]; a failure of the request is caught and changes
    nothing. *)
Definition handleLeaveGame (k : t) : t * list Request :=
  let c := state k in
  let sent :=
    if String.eqb (myPlayerId c) "" then [] else [post_leave (myPlayerId c)] in
  let c1 :=
    Client.mk login [] [] "" conn_disconnected
              (lastServerUpdate c) (keysRef c) (lastPositionRef c)
              (movementQueueRef c) in
  (render c1 (username k) None k, sent).

(** What happens to the component. *)
Inductive Event : Type :=
| type_username (value : string)        (* onChange of the name field *)
| click_join (playerId : string) (joined : bool)
             (posted : bool) (fetched : option GameData)
| click_reconnect (playerId : string) (joined : bool)
                  (posted : bool) (fetched : option GameData)
| click_leave
| key_down (key : string)
| key_up (key : string)
| frame                                  (* a callback of requestAnimationFrame *)
| tick (posted : bool) (fetched : option GameData).  (* the interval fires *)

(** One event.  The name field and the button of [handleJoinGame] are on
    the login screen, the button of [handleReconnect] on the
    disconnected screen, and a button of [handleLeaveGame] on that
    screen and on the game screen; the key handlers are on the window. *)
Definition handle (e : Event) (k : t) : t * list Request :=
  match e, gameState (state k) with
  | type_username value, login =>
      (render (state k) value (updateIntervalRef k) k, [])
  | click_join playerId joined posted fetched, login =>
      handleJoinGame playerId joined posted fetched k
  | click_reconnect playerId joined posted fetched, disconnected =>
      handleReconnect playerId joined posted fetched k
  | click_leave, playing | click_leave, disconnected =>
      handleLeaveGame k
  | key_down key, _ =>
      (set_state (handleKeyDown toLowerCase key (state k)) k, [])
  | key_up key, _ =>
      (set_state (handleKeyUp toLowerCase key (state k)) k, [])
  | frame, _ =>
      let out := gameLoop (state k) in
      (render (fst out) (username k) (updateIntervalRef k) k, snd out)
  | tick posted fetched, _ =>
      match updateIntervalRef k with
      | Some f =>
          let out :=
            updateGame (seen_myPlayerId f) (seen_lastServerUpdate f)
                       posted fetched (state k) in
          (render (fst out) (username k) (updateIntervalRef k) k, snd out)
      | None => (k, [])
      end
  | _, _ => (k, [])
  end.

(** The component after a sequence of events, and the requests made on
    the way. *)
Fixpoint handle_all (events : list Event) (k : t) : t * list Request :=
  match events with
  | [] => (k, [])
  | e :: rest =>
      let out := handle e k in
      let out' := handle_all rest (fst out) in
      (fst out', (snd out ++ snd out')%list)
  end.

End Handlers.

End Component.

(** What holds of the component after every event: the
    [startGameUpdates] that [connectToGame] calls, and the [updateGame]
    that the interval runs, were made in a render in which [myPlayerId]
    was the empty string. *)
Definition closures_without_id (k : Component.t) : Prop :=
  Component.seen_myPlayerId
    (Component.seen_startGameUpdates (Component.memo_connectToGame k)) = ""
  /\ Component.seen_username (Component.memo_connectToGame k)
     = Component.username k
  /\ (forall f, Component.updateIntervalRef k = Some f ->
                Component.seen_myPlayerId f = "")
  /\ (Client.gameState (Component.state k) = Client.login ->
      Client.myPlayerId (Component.state k) = "")
  /\ Component.seen_myPlayerId (Component.memo_startGameUpdates k)
     = Client.myPlayerId (Component.state k).

(** The keys that [gameLoop] reads. *)
Definition movementKeys : list string :=
  ["w"; "arrowup"; "s"; "arrowdown"; "a"; "arrowleft"; "d"; "arrowright"].

(** The client of player a leaning on the right edge, with that position
    recorded as the last one. *)
Definition client_at_the_wall : Client.t :=
  Client.mk Client.playing
            [("a", Client.mkPlayer "a" "ann" 780 5 "#FF6B6B" 0)]
            [] "a" Client.conn_connected 4000 ["d"] (780, 5)%Q None.


(** A clock that never runs backwards. *)
Definition monotone (clk : nat -> Z) : Prop :=
  forall i j, (i <= j)%nat -> clk i <= clk j.

(** A snapshot of player a alone at (2, 5), stamped 4000. *)
Definition snapshot_of_one : Client.GameData :=
  Client.mkGameData [ Client.mkPlayer "a" "ann" 2 5 "#FF6B6B" 0 ] [] 4000.

(** A session of the component: the user types a name and joins, the
    join is answered and the first update shows the player at (2, 5);
    then the key d goes down.  Neither the name nor the key has an upper
    case letter or a blank, so trimming and lower-casing are the
    identity here. *)
Definition session : list Component.Event :=
  [ Component.type_username "ann";
    Component.click_join "a" true true (Some snapshot_of_one);
    Component.key_down "d" ].

Definition component_holding_d : Component.t :=
  fst (Component.handle_all (fun u => u) (fun k => k) session Component.mount).

(** * Properties *)

Open Scope list_scope.

(** ** Maps *)

Section MapFacts.

Context {V : Type}.
Implicit Types (m : list (string * V)) (k : string) (v : V).

Lemma Map_get_set_same k v m : Map_get k (Map_set k v m) = Some v.
Proof.
  induction m as [|[k' v'] m IH]; simpl.
  - now rewrite String.eqb_refl.
  - destruct (String.eqb k' k) eqn:E; simpl.
    + now rewrite String.eqb_refl.
    + now rewrite E.
Qed.

Lemma Map_get_set_other k k' v m :
  k <> k' -> Map_get k' (Map_set k v m) = Map_get k' m.
Proof.
  intros Hne.
  assert (Hk : String.eqb k k' = false) by now apply String.eqb_neq.
  induction m as [|[k0 v0] m IH]; simpl.
  - now rewrite Hk.
  - destruct (String.eqb k0 k) eqn:E; simpl.
    + apply String.eqb_eq in E. subst k0. now rewrite Hk.
    + now rewrite IH.
Qed.

Lemma Map_get_delete_same k m : Map_get k (Map_delete k m) = None.
Proof.
  unfold Map_delete.
  induction m as [|[k' v'] m IH]; simpl; trivial.
  destruct (String.eqb k' k) eqn:E; simpl; trivial.
  now rewrite E.
Qed.

Lemma Map_get_delete_other k k' m :
  k <> k' -> Map_get k' (Map_delete k m) = Map_get k' m.
Proof.
  intros Hne. unfold Map_delete.
  induction m as [|[k0 v0] m IH]; simpl; trivial.
  destruct (String.eqb k0 k) eqn:E; simpl.
  - apply String.eqb_eq in E. subst k0.
    apply String.eqb_neq in Hne. now rewrite Hne.
  - now rewrite IH.
Qed.

Lemma Map_keys_set_present k v m :
  Map_has k m = true -> Map_keys (Map_set k v m) = Map_keys m.
Proof.
  unfold Map_has, Map_keys.
  induction m as [|[k' v'] m IH]; simpl; [discriminate|].
  destruct (String.eqb k' k) eqn:E; simpl; intros H.
  - apply String.eqb_eq in E. now subst.
  - now rewrite IH.
Qed.

Lemma Map_get_In k v m : Map_get k m = Some v -> In (k, v) m.
Proof.
  induction m as [|[k' v'] m IH]; simpl; [discriminate|].
  destruct (String.eqb k' k) eqn:E; intros H.
  - apply String.eqb_eq in E. left. congruence.
  - right. auto.
Qed.

Lemma Map_In_get k v m : Map_wf m -> In (k, v) m -> Map_get k m = Some v.
Proof.
  unfold Map_wf, Map_keys.
  induction m as [|[k' v'] m IH]; simpl; [tauto|].
  intros Hwf [H|H]; inversion Hwf as [|? ? Hnot Hrest]; subst.
  - inversion H; subst. now rewrite String.eqb_refl.
  - destruct (String.eqb k' k) eqn:E.
    + apply String.eqb_eq in E. subst k'.
      exfalso. apply Hnot. now apply (in_map fst _ (k, v)).
    + auto.
Qed.

(** Deleting a list of keys, as the second loop of the reaper does. *)
Lemma Map_get_delete_all k (ids : list string) m :
  Map_get k (fold_left (fun m id => Map_delete id m) ids m)
  = if in_dec string_dec k ids then None else Map_get k m.
Proof.
  revert m. induction ids as [|i ids IH]; intros m; simpl; trivial.
  rewrite IH.
  destruct (in_dec string_dec k ids) as [Hin|Hout];
    destruct (string_dec i k) as [->|Hne]; trivial.
  - apply Map_get_delete_same.
  - now apply Map_get_delete_other.
Qed.

End MapFacts.

(** ** Frame facts about the generators *)

Section Frames.

Variable toString : Q -> string.

Lemma generateFood_world s :
  gameState (snd (generateFood toString s)) = gameState s.
Proof. reflexivity. Qed.

Lemma Array_from_world {A : Type} (gen : M A) n :
  (forall s, gameState (snd (gen s)) = gameState s) ->
  forall s, gameState (snd (Array_from n gen s)) = gameState s.
Proof.
  intros Hgen. induction n as [|n IH]; intros s; simpl; trivial.
  unfold bind; simpl. now rewrite IH, Hgen.
Qed.

Lemma Array_from_clock {A : Type} (gen : M A) n :
  (forall s, clock (snd (gen s)) = clock s) ->
  forall s, clock (snd (Array_from n gen s)) = clock s.
Proof.
  intros Hgen. induction n as [|n IH]; intros s; simpl; trivial.
  unfold bind; simpl. now rewrite IH, Hgen.
Qed.

(** [initializeFood] touches nothing but the food list. *)
Lemma initializeFood_frame s :
  let s' := snd (initializeFood toString s) in
  GameState.players (gameState s') = GameState.players (gameState s)
  /\ GameState.lastUpdate (gameState s') = GameState.lastUpdate (gameState s)
  /\ clock s' = clock s.
Proof.
  unfold initializeFood. generalize FOOD_COUNT. intros n.
  unfold bind, read, modify. cbv zeta. cbn [fst snd].
  destruct (Nat.eqb _ 0); cbn [fst snd gameState clock ret];
    [|repeat split; reflexivity].
  rewrite (Array_from_world _ _ generateFood_world).
  rewrite Array_from_clock by reflexivity.
  repeat split; reflexivity.
Qed.

End Frames.

(** ** What each branch of [POST] returns and leaves behind *)

Ltac js_step :=
  unfold POST, dispatch, bind, read, modify, ret, ticked, with_world;
  cbv zeta; cbn [fst snd Date_now gameState clock ticks entropy draws].

Section Handlers.

Variable toString : Q -> string.

Implicit Types (s : Server) (playerId foodId : string).

Lemma POST_move_present s playerId mx my player :
  Map_get playerId (GameState.players (gameState s)) = Some player ->
  POST toString (Some (move playerId mx my)) s
  = (Success true,
     with_world
       (GameState.mk
          (Map_set playerId
             (Player.set_lastUpdate (next_now s)
                (Player.set_y (clamp (CANVAS_HEIGHT - PLAYER_SIZE) my)
                   (Player.set_x (clamp (CANVAS_WIDTH - PLAYER_SIZE) mx) player)))
             (GameState.players (gameState s)))
          (GameState.food (gameState s))
          (next_now s))
       (ticked s)).
Proof. intros H. js_step. rewrite H. reflexivity. Qed.

Lemma POST_move_absent s playerId mx my :
  Map_get playerId (GameState.players (gameState s)) = None ->
  POST toString (Some (move playerId mx my)) s = (Success true, ticked s).
Proof. intros H. js_step. rewrite H. reflexivity. Qed.

Lemma POST_heartbeat_present s playerId player :
  Map_get playerId (GameState.players (gameState s)) = Some player ->
  POST toString (Some (heartbeat playerId)) s
  = (Success true,
     with_world
       (GameState.set_players
          (Map_set playerId (Player.set_lastUpdate (next_now s) player)
                   (GameState.players (gameState s)))
          (gameState s))
       (ticked s)).
Proof. intros H. js_step. rewrite H. reflexivity. Qed.

Lemma POST_heartbeat_absent s playerId :
  Map_get playerId (GameState.players (gameState s)) = None ->
  POST toString (Some (heartbeat playerId)) s = (Success true, ticked s).
Proof. intros H. js_step. rewrite H. reflexivity. Qed.

Lemma POST_leave_present s playerId :
  Map_has playerId (GameState.players (gameState s)) = true ->
  POST toString (Some (leave playerId)) s
  = (Success true,
     with_world
       (GameState.mk
          (Map_delete playerId (GameState.players (gameState s)))
          (GameState.food (gameState s))
          (next_now s))
       (ticked s)).
Proof. intros H. js_step. rewrite H. reflexivity. Qed.

Lemma POST_leave_absent s playerId :
  Map_has playerId (GameState.players (gameState s)) = false ->
  POST toString (Some (leave playerId)) s = (Success true, ticked s).
Proof. intros H. js_step. rewrite H. reflexivity. Qed.

Lemma POST_collectFood_hit s playerId foodId player foodIndex :
  Map_get playerId (GameState.players (gameState s)) = Some player ->
  findIndex foodId (GameState.food (gameState s)) = Some foodIndex ->
  let newFood := fst (generateFood toString (ticked s)) in
  POST toString (Some (collectFood playerId foodId)) s
  = (Collected newFood (Player.score player + 1),
     with_world
       (GameState.mk
          (Map_set playerId
             (Player.set_lastUpdate (next_now s)
                (Player.set_score (Player.score player + 1) player))
             (GameState.players (gameState s)))
          (splice1 foodIndex (GameState.food (gameState s)) ++ [newFood])
          (next_now s))
       (snd (generateFood toString (ticked s)))).
Proof. intros Hp Hf. js_step. rewrite Hp, Hf. reflexivity. Qed.

Lemma POST_collectFood_gone s playerId foodId :
  findIndex foodId (GameState.food (gameState s)) = None ->
  POST toString (Some (collectFood playerId foodId)) s
  = (Success false, ticked s).
Proof.
  intros Hf. js_step. rewrite Hf.
  destruct (Map_get playerId _); reflexivity.
Qed.

Lemma POST_collectFood_stranger s playerId foodId :
  Map_get playerId (GameState.players (gameState s)) = None ->
  POST toString (Some (collectFood playerId foodId)) s
  = (Success false, ticked s).
Proof. intros Hp. js_step. rewrite Hp. reflexivity. Qed.

(** [join] never looks whether the id is taken. *)
Lemma POST_join s playerId username :
  let s1 := snd (initializeFood toString (ticked s)) in
  let newPlayer :=
    Player.mk playerId username
      (Num (entropy s1 (draws s1) * inject_Z (CANVAS_WIDTH - PLAYER_SIZE)))
      (Num (entropy s1 (S (draws s1)) * inject_Z (CANVAS_HEIGHT - PLAYER_SIZE)))
      (pick playerColors (entropy s1 (S (S (draws s1)))))
      0 (next_now s) in
  POST toString (Some (join playerId username)) s
  = (Joined newPlayer,
     mkServer (clock s1) (ticks s1) (entropy s1) (S (S (S (draws s1))))
       (GameState.mk
          (Map_set playerId newPlayer (GameState.players (gameState s1)))
          (GameState.food (gameState s1))
          (next_now s))).
Proof.
  unfold POST, dispatch, bind. cbv zeta.
  cbn [fst snd Date_now]. unfold ticked, next_now. cbn [snd Date_now].
  generalize (initializeFood toString
    {| clock := clock s; ticks := S (ticks s); entropy := entropy s;
       draws := draws s; gameState := gameState s |}).
  intros [u s1]. reflexivity.
Qed.

End Handlers.
(** ** The synchronisation token *)

Section Token.

Variable toString : Q -> string.

(** The reaper found somebody exactly when somebody was stale. *)
Lemma playersToRemove_nonempty now (m : PlayerMap) :
  Nat.ltb 0 (List.length (map fst (filter (fun kv => stale now (snd kv)) m)))
  = existsb (stale now) (Map_values m).
Proof.
  unfold Map_values.
  induction m as [|[k p] m IH]; simpl; trivial.
  destruct (stale now p); simpl; trivial.
Qed.

(** The world that one pass of the reaper leaves. *)
Lemma cleanupPlayers_world s :
  world cleanupPlayers s
  = let now := next_now s in
    let g := gameState s in
    GameState.mk
      (fold_left (fun m id => Map_delete id m)
         (map fst (filter (fun kv => stale now (snd kv)) (GameState.players g)))
         (GameState.players g))
      (GameState.food g)
      (if reaps now g then now else GameState.lastUpdate g).
Proof.
  unfold world, cleanupPlayers, reaps, next_now, bind, read. cbv zeta.
  cbn [fst snd Date_now].
  rewrite playersToRemove_nonempty.
  destruct (existsb _ _); reflexivity.
Qed.

Lemma cleanupPlayers_counter s :
  GameState.lastUpdate (world cleanupPlayers s)
  = if reaps (next_now s) (gameState s) then next_now s else counter s.
Proof. rewrite cleanupPlayers_world. reflexivity. Qed.

Lemma POST_counter request s :
  GameState.lastUpdate (world (POST toString request) s)
  = if changes (gameState s) request then next_now s else counter s.
Proof.
  unfold world, counter, changes, Map_has.
  destruct request as [[id name|id px py|id fid|id|id|ty|]|];
    [ | | | | | reflexivity | reflexivity | reflexivity ].
  - now rewrite POST_join.
  - destruct (Map_get id (GameState.players (gameState s))) eqn:E.
    + now rewrite (POST_move_present _ _ _ _ _ _ E).
    + now rewrite POST_move_absent.
  - destruct (findIndex fid (GameState.food (gameState s))) eqn:F.
    + destruct (Map_get id (GameState.players (gameState s))) eqn:E.
      * now rewrite (POST_collectFood_hit _ _ _ _ _ _ E F).
      * now rewrite POST_collectFood_stranger.
    + rewrite POST_collectFood_gone by assumption.
      now rewrite andb_false_r.
  - destruct (Map_get id (GameState.players (gameState s))) eqn:E.
    + now rewrite (POST_heartbeat_present _ _ _ _ E).
    + now rewrite POST_heartbeat_absent.
  - destruct (Map_get id (GameState.players (gameState s))) eqn:E.
    + rewrite POST_leave_present; [reflexivity|].
      unfold Map_has. now rewrite E.
    + rewrite POST_leave_absent; [reflexivity|].
      unfold Map_has. now rewrite E.
Qed.

(** C1, as the route implements it: the token is not a counter that is
    incremented but the clock reading of the request that changed the
    world.  After a request that changes the world, and after a reaping
    pass that removes a player, [lastUpdate] is that reading; after
    every other request (a heartbeat among them) and after a pass that
    removes nobody it keeps its value.  It has grown strictly exactly
    when the world changed and the reading is later than the previous
    token. *)
Theorem lastUpdate_is_time_of_last_change request s :
  let before := counter s in
  let now := next_now s in
  let after_post := GameState.lastUpdate (world (POST toString request) s) in
  let after_reap := GameState.lastUpdate (world cleanupPlayers s) in
  after_post = (if changes (gameState s) request then now else before)
  /\ after_reap = (if reaps now (gameState s) then now else before)
  /\ (before < after_post <->
      changes (gameState s) request = true /\ before < now)
  /\ (before < after_reap <->
      reaps now (gameState s) = true /\ before < now)
  /\ (forall playerId,
        GameState.lastUpdate
          (world (POST toString (Some (heartbeat playerId))) s) = before).
Proof.
  cbv zeta.
  rewrite POST_counter, cleanupPlayers_counter.
  repeat split; trivial.
  - destruct (changes _ _); [reflexivity | lia].
  - destruct (changes _ _); [assumption | lia].
  - intros [-> H]. exact H.
  - destruct (reaps _ _); [reflexivity | lia].
  - destruct (reaps _ _); [assumption | lia].
  - intros [-> H]. exact H.
  - intros playerId. now rewrite POST_counter.
Qed.

End Token.

(** C1 as stated fails: two players join, then both move within the same
    millisecond.  The second move changes the world (player b is present
    and is moved to another position), and the token stays at 4000. *)
Lemma lastUpdate_not_strictly_increasing :
  let request := Some (move "b" (Num 20) (Num 20)) in
  let s := two_players_moving in
  let s' := snd (POST digits request s) in
  changes (gameState s) request = true
  /\ gameState s' <> gameState s
  /\ ~ (counter s < counter s').
Proof.
  vm_compute. repeat split; discriminate.
Qed.
(** ** Moves are clamped into the field *)

Example clamp_negative : clamp 780 (Num (-50)) = Num 0.
Proof. reflexivity. Qed.

Example clamp_huge : clamp 780 (Num 1000000000) = Num 780.
Proof. reflexivity. Qed.

Example clamp_inside : clamp 780 (Num (7 # 2)) = Num (7 # 2).
Proof. reflexivity. Qed.

Example clamp_infinities :
  clamp 580 PosInfinity = Num 580 /\ clamp 580 NegInfinity = Num 0.
Proof. split; reflexivity. Qed.

Example clamp_NaN : clamp 780 NaN = NaN.
Proof. reflexivity. Qed.

Lemma Math_min_bound (limit : Q) (v : number) :
  is_number v ->
  match Math_min (Num limit) v with
  | Num q => (q <= limit)%Q
  | NegInfinity => True
  | _ => False
  end.
Proof.
  unfold is_number. destruct v as [q| | |]; simpl; intros H.
  - destruct (Qle_bool limit q) eqn:E.
    + apply Qle_refl.
    + apply Qlt_le_weak, Qnot_le_lt. intros Hle.
      apply Qle_bool_iff in Hle. congruence.
  - apply Qle_refl.
  - exact I.
  - now apply H.
Qed.

Lemma clamp_within (limit : Z) (v : number) :
  0 <= limit -> is_number v -> within 0 (inject_Z limit) (clamp limit v).
Proof.
  intros Hlimit Hv. unfold clamp.
  pose proof (Math_min_bound (inject_Z limit) v Hv) as Hmin.
  assert (Hl : (0 <= inject_Z limit)%Q).
  { change 0%Q with (inject_Z 0). now rewrite <- Zle_Qle. }
  destruct (Math_min (Num (inject_Z limit)) v) as [q| | |]; simpl in *;
    try contradiction.
  - destruct (Qle_bool 0 q) eqn:E; simpl.
    + split; [now apply Qle_bool_iff | assumption].
    + split; [apply Qle_refl | assumption].
  - split; [apply Qle_refl | assumption].
Qed.

(** Case analysis on the comparisons inside [Math.min] and [Math.max]. *)
Ltac qle_cases :=
  repeat (cbn [Math_min Math_max];
          match goal with
          | |- context [Qle_bool ?a ?b] =>
              let E := fresh "E" in
              destruct (Qle_bool a b) eqn:E;
              [ apply Qle_bool_iff in E
              | apply not_true_iff_false in E; rewrite Qle_bool_iff in E ]
          end);
  cbn [Math_min Math_max].

Lemma clamp_keeps_inside (limit : Z) (q : Q) :
  (0 <= q)%Q -> (q <= inject_Z limit)%Q ->
  has_value (clamp limit (Num q)) q.
Proof.
  intros H0 H1. unfold clamp. qle_cases; unfold has_value; lra.
Qed.

(** [Math.max(0, Math.min(limit, v))] clamps: it keeps a value of
    [[0, limit]], raises a smaller one to 0 and lowers a larger one to
    [limit]. *)
Lemma clamp_clamps (limit : Z) (v : number) :
  0 <= limit -> clamped limit v (clamp limit v).
Proof.
  intros Hlimit.
  assert (Hl : (0 <= inject_Z limit)%Q).
  { change 0%Q with (inject_Z 0). now rewrite <- Zle_Qle. }
  unfold clamped, clamp.
  destruct v as [q| | |]; [repeat split; intros| | |exact I];
    qle_cases; unfold has_value; lra.
Qed.

Section Moves.

Variable toString : Q -> string.

(** A move of a present player: the request is acknowledged and the
    player is stored at the clamped target. *)
Lemma move_lands_in_field s playerId mx my :
  Map_has playerId (GameState.players (gameState s)) = true ->
  is_number mx -> is_number my ->
  let out := POST toString (Some (move playerId mx my)) s in
  fst out = Success true
  /\ exists p,
       Map_get playerId (GameState.players (gameState (snd out))) = Some p
       /\ Player.x p = clamp (CANVAS_WIDTH - PLAYER_SIZE) mx
       /\ Player.y p = clamp (CANVAS_HEIGHT - PLAYER_SIZE) my
       /\ in_field p
       /\ clamped (CANVAS_WIDTH - PLAYER_SIZE) mx (Player.x p)
       /\ clamped (CANVAS_HEIGHT - PLAYER_SIZE) my (Player.y p).
Proof.
  unfold Map_has. intros Hhas Hx Hy.
  destruct (Map_get playerId (GameState.players (gameState s)))
    as [player|] eqn:E; [|discriminate].
  cbv zeta. rewrite (POST_move_present _ _ _ _ _ _ E). split; [reflexivity|].
  eexists. split; [apply Map_get_set_same|].
  cbn [Player.x Player.y Player.set_lastUpdate Player.set_y Player.set_x].
  split; [reflexivity|]. split; [reflexivity|].
  split; [split|split].
  - apply (clamp_within 780 mx); [lia | assumption].
  - apply (clamp_within 580 my); [lia | assumption].
  - apply clamp_clamps. unfold CANVAS_WIDTH, PLAYER_SIZE. lia.
  - apply clamp_clamps. unfold CANVAS_HEIGHT, PLAYER_SIZE. lia.
Qed.

(** C2: whatever numbers a sequence of move requests for a present
    player carries (negative, huge, infinite), every request of the
    sequence is answered with success:true and leaves the player at the
    clamped target, inside [0, 800 - 20] x [0, 600 - 20]: on each axis a
    target inside the interval is stored with its value, a target below
    0 as 0 and a target above the limit as the limit. *)
Theorem moves_are_clamped_never_rejected
        s playerId (targets : list (number * number)) :
  Map_has playerId (GameState.players (gameState s)) = true ->
  Forall (fun t => is_number (fst t) /\ is_number (snd t)) targets ->
  Forall2
    (fun t out =>
       fst out = Success true
       /\ exists p,
            Map_get playerId (GameState.players (gameState (snd out))) = Some p
            /\ Player.x p = clamp (CANVAS_WIDTH - PLAYER_SIZE) (fst t)
            /\ Player.y p = clamp (CANVAS_HEIGHT - PLAYER_SIZE) (snd t)
            /\ in_field p
            /\ clamped (CANVAS_WIDTH - PLAYER_SIZE) (fst t) (Player.x p)
            /\ clamped (CANVAS_HEIGHT - PLAYER_SIZE) (snd t) (Player.y p))
    targets
    (serve (POST toString)
           (map (fun t => Some (move playerId (fst t) (snd t))) targets) s).
Proof.
  intros Hhas Hall. revert s Hhas.
  induction Hall as [|[mx my] targets [Hx Hy] Hall IH]; intros s Hhas.
  - constructor.
  - cbn [map serve fst snd].
    pose proof (move_lands_in_field s playerId mx my Hhas Hx Hy) as Hstep.
    cbv zeta in Hstep.
    constructor; [exact Hstep|].
    apply IH.
    destruct Hstep as [_ [p [Hp _]]].
    unfold Map_has. now rewrite Hp.
Qed.

End Moves.

(** A run of C2 on the world of two players: a target far outside the
    field, an infinite one, the target (0, -50) of the scenario, which
    is stored as (0, 0), and a target inside the field, which is stored
    as it is. *)
Lemma moves_are_clamped_witness :
  let targets :=
    [ (Num (-50), Num 1000000000); (PosInfinity, NegInfinity);
      (Num 0, Num (-50)); (Num (7 # 2), Num 580) ] in
  Forall2
    (fun t out =>
       fst out = Success true
       /\ exists p,
            Map_get "a" (GameState.players (gameState (snd out))) = Some p
            /\ Player.x p = clamp (CANVAS_WIDTH - PLAYER_SIZE) (fst t)
            /\ Player.y p = clamp (CANVAS_HEIGHT - PLAYER_SIZE) (snd t)
            /\ in_field p
            /\ clamped (CANVAS_WIDTH - PLAYER_SIZE) (fst t) (Player.x p)
            /\ clamped (CANVAS_HEIGHT - PLAYER_SIZE) (snd t) (Player.y p))
    targets
    (serve (POST digits)
           (map (fun t => Some (move "a" (fst t) (snd t))) targets)
           two_players_moving).
Proof.
  apply (moves_are_clamped_never_rejected digits two_players_moving "a").
  - vm_compute. reflexivity.
  - repeat constructor; discriminate.
Defined.

(** The positions that the run above stores, one after the other. *)
Example moves_are_clamped_stored :
  let targets :=
    [ (Num (-50), Num 1000000000); (PosInfinity, NegInfinity);
      (Num 0, Num (-50)); (Num (7 # 2), Num 580) ] in
  map (fun out =>
         option_map (fun p => (Player.x p, Player.y p))
                    (Map_get "a" (GameState.players (gameState (snd out)))))
      (serve (POST digits)
             (map (fun t => Some (move "a" (fst t) (snd t))) targets)
             two_players_moving)
  = [ Some (Num 0, Num 580); Some (Num 780, Num 0);
      Some (Num 0, Num 0); Some (Num (7 # 2), Num 580) ].
Proof. vm_compute. reflexivity. Qed.

(** A target that is not a number is stored as it is: the clamp does not
    repair NaN. *)
Remark move_without_number :
  let out := POST digits (Some (move "a" NaN (Num 5))) two_players_moving in
  fst out = Success true
  /\ option_map Player.x
       (Map_get "a" (GameState.players (gameState (snd out)))) = Some NaN.
Proof. vm_compute. split; reflexivity. Qed.
(** ** Collecting food *)

Example findIndex_first_match :
  let item (i : string) := Food.mk i (Num 1) (Num 1) "#FF4757" in
  findIndex "f2" [item "f1"; item "f2"; item "f3"; item "f2"] = Some 1%nat
  /\ findIndex "f9" [item "f1"; item "f2"] = None
  /\ splice1 1 [item "f1"; item "f2"; item "f3"; item "f2"]
     = [item "f1"; item "f3"; item "f2"].
Proof. repeat split. Qed.

(** [findIndex] finds nothing exactly when no item carries the id. *)
Lemma findIndex_None foodId (l : list Food.t) :
  findIndex foodId l = None <-> ~ In foodId (map Food.id l).
Proof.
  induction l as [|f l IH]; simpl.
  - tauto.
  - destruct (String.eqb (Food.id f) foodId) eqn:E.
    + apply String.eqb_eq in E. split; [discriminate | tauto].
    + apply String.eqb_neq in E.
      destruct (findIndex foodId l); simpl.
      * split; [discriminate|]. intros H. exfalso. apply H. right.
        destruct (in_dec string_dec foodId (map Food.id l)) as [Hin|Hout]; trivial.
        now apply IH in Hout.
      * split; trivial. intros _ [H|H]; [contradiction|].
        now apply (proj1 IH).
Qed.

(** What [findIndex] and [splice] do together: the list is cut at the
    first item that carries the id, and that item alone is dropped. *)
Lemma findIndex_Some foodId (l : list Food.t) i :
  findIndex foodId l = Some i ->
  exists before eaten rest,
    l = before ++ eaten :: rest
    /\ List.length before = i
    /\ Food.id eaten = foodId
    /\ ~ In foodId (map Food.id before)
    /\ splice1 i l = before ++ rest.
Proof.
  revert i. induction l as [|f l IH]; simpl; intros i H; [discriminate|].
  destruct (String.eqb (Food.id f) foodId) eqn:E.
  - apply String.eqb_eq in E. inversion H; subst i.
    exists [], f, l. repeat split; trivial. intros [].
  - apply String.eqb_neq in E.
    destruct (findIndex foodId l) as [j|]; [|discriminate].
    inversion H; subst i.
    destruct (IH j eq_refl) as (before & eaten & rest & Hl & Hlen & Hid & Hnot & Hsp).
    exists (f :: before), eaten, rest. simpl. repeat split.
    + now rewrite Hl.
    + now rewrite Hlen.
    + assumption.
    + intros [H'|H']; [contradiction | now apply Hnot].
    + unfold splice1 in *.
      change (f :: (firstn j l ++ skipn (S j) l) = f :: before ++ rest).
      now rewrite Hsp.
Qed.

Section Collect.

Variable toString : Q -> string.

(** C3: a player who is present collects a food id that is in the list.
    The first item with that id is dropped and nothing else, one freshly
    generated item is appended, so the list keeps its length; the
    player's score grows by exactly 1; the answer is success:true with
    the new item and the new score. *)
Theorem collectFood_replaces_one_item s playerId foodId player :
  Map_get playerId (GameState.players (gameState s)) = Some player ->
  In foodId (map Food.id (GameState.food (gameState s))) ->
  let out := POST toString (Some (collectFood playerId foodId)) s in
  let g := gameState s in
  let g' := gameState (snd out) in
  exists before eaten rest newFood player',
    GameState.food g = before ++ eaten :: rest
    /\ Food.id eaten = foodId
    /\ ~ In foodId (map Food.id before)
    /\ newFood = fst (generateFood toString (ticked s))
    /\ GameState.food g' = before ++ rest ++ [newFood]
    /\ List.length (GameState.food g') = List.length (GameState.food g)
    /\ Map_get playerId (GameState.players g') = Some player'
    /\ Player.score player' = Player.score player + 1
    /\ fst out = Collected newFood (Player.score player')
    /\ (forall other, other <> playerId ->
          Map_get other (GameState.players g')
          = Map_get other (GameState.players g)).
Proof.
  intros Hp Hin. cbv zeta.
  destruct (findIndex foodId (GameState.food (gameState s))) as [i|] eqn:Hf.
  2: { apply findIndex_None in Hf. contradiction. }
  rewrite (POST_collectFood_hit _ _ _ _ _ _ Hp Hf). cbv zeta.
  destruct (findIndex_Some _ _ _ Hf)
    as (before & eaten & rest & Hl & Hlen & Hid & Hnot & Hsp).
  exists before, eaten, rest, (fst (generateFood toString (ticked s))).
  eexists. cbn [fst snd gameState with_world GameState.food GameState.players].
  repeat split; try assumption.
  - rewrite Hsp. now rewrite <- app_assoc.
  - rewrite Hsp, Hl. repeat rewrite length_app. simpl. lia.
  - apply Map_get_set_same.
  - reflexivity.
  - reflexivity.
  - intros other Hother. apply Map_get_set_other. congruence.
Qed.

(** C4: a player who is present names a food id that is not in the
    list.  The answer is success:false and the world is the one before
    the request: same players with the same scores, same food list,
    same token. *)
Theorem collectFood_missing_food_is_noop s playerId foodId :
  Map_has playerId (GameState.players (gameState s)) = true ->
  ~ In foodId (map Food.id (GameState.food (gameState s))) ->
  let out := POST toString (Some (collectFood playerId foodId)) s in
  fst out = Success false /\ gameState (snd out) = gameState s.
Proof.
  intros _ Hout. cbv zeta.
  rewrite POST_collectFood_gone by now apply findIndex_None.
  split; reflexivity.
Qed.

(** C10: a collection by an id that is not a player.  The answer is
    success:false and the world is the one before the request, whether
    or not the food id is in the list. *)
Theorem collectFood_unknown_player_is_noop s playerId foodId :
  Map_has playerId (GameState.players (gameState s)) = false ->
  let out := POST toString (Some (collectFood playerId foodId)) s in
  fst out = Success false /\ gameState (snd out) = gameState s.
Proof.
  unfold Map_has. intros Hhas. cbv zeta.
  destruct (Map_get playerId (GameState.players (gameState s))) eqn:E;
    [discriminate|].
  rewrite POST_collectFood_stranger by assumption.
  split; reflexivity.
Qed.

End Collect.

(** C3 on the world of two players: player a collects the third item of
    the pool. *)
Lemma collectFood_replaces_witness :
  let s := two_players_moving in
  let foodId := "food-2000-8/97" in
  let out := POST digits (Some (collectFood "a" foodId)) s in
  In foodId (map Food.id (GameState.food (gameState s)))
  /\ List.length (GameState.food (gameState (snd out))) = 50%nat
  /\ exists newFood, fst out = Collected newFood 1.
Proof.
  cbv zeta.
  assert (Hp : Map_get "a" (GameState.players (gameState two_players_moving))
               = Some (Player.mk "a" "ann" (Num 10) (Num 10) "#FF6B6B" 0 4000))
    by (vm_compute; reflexivity).
  assert (Hin : In "food-2000-8/97"
                   (map Food.id (GameState.food (gameState two_players_moving)))).
  { vm_compute. right. right. left. reflexivity. }
  destruct (collectFood_replaces_one_item digits two_players_moving
              "a" "food-2000-8/97" _ Hp Hin)
    as (before & eaten & rest & newFood & player' & _ & _ & _ & _ & _
        & Hlen & _ & Hscore & Hout & _).
  split; [exact Hin|]. split.
  - rewrite Hlen. vm_compute. reflexivity.
  - exists newFood. rewrite Hout, Hscore. reflexivity.
Defined.

(** C4 on the world of two players: the id names no item of the pool. *)
Lemma collectFood_missing_food_witness :
  let s := two_players_moving in
  let out := POST digits (Some (collectFood "a" "food-1-1")) s in
  fst out = Success false /\ gameState (snd out) = gameState s.
Proof.
  apply (collectFood_missing_food_is_noop digits two_players_moving "a" "food-1-1").
  - vm_compute. reflexivity.
  - vm_compute. intuition discriminate.
Defined.

(** C10 on the world of two players: the food id is in the pool, the
    player id is nobody's. *)
Lemma collectFood_unknown_player_witness :
  let s := two_players_moving in
  let out := POST digits (Some (collectFood "zed" "food-2000-8/97")) s in
  In "food-2000-8/97" (map Food.id (GameState.food (gameState s)))
  /\ fst out = Success false /\ gameState (snd out) = gameState s.
Proof.
  split.
  - vm_compute. right. right. left. reflexivity.
  - apply (collectFood_unknown_player_is_noop digits two_players_moving
             "zed" "food-2000-8/97").
    vm_compute. reflexivity.
Defined.
(** ** Heartbeats *)

Section Heartbeat.

Variable toString : Q -> string.

(** C8: a heartbeat of a present player.  The answer is success:true;
    the player's record keeps its id, name, position, colour and score
    and carries the time of the request as last activity; every other
    player, the order of the players, the food list and the token are
    as before. *)
Theorem heartbeat_touches_only_last_activity s playerId player :
  Map_get playerId (GameState.players (gameState s)) = Some player ->
  let out := POST toString (Some (heartbeat playerId)) s in
  let g := gameState s in
  let g' := gameState (snd out) in
  fst out = Success true
  /\ Map_get playerId (GameState.players g')
     = Some (Player.mk (Player.id player) (Player.username player)
                       (Player.x player) (Player.y player)
                       (Player.color player) (Player.score player)
                       (next_now s))
  /\ (forall other, other <> playerId ->
        Map_get other (GameState.players g')
        = Map_get other (GameState.players g))
  /\ Map_keys (GameState.players g') = Map_keys (GameState.players g)
  /\ GameState.food g' = GameState.food g
  /\ GameState.lastUpdate g' = GameState.lastUpdate g.
Proof.
  intros Hp. cbv zeta.
  rewrite (POST_heartbeat_present _ _ _ _ Hp).
  cbn [fst snd gameState with_world GameState.set_players
       GameState.players GameState.food GameState.lastUpdate].
  split; [reflexivity|].
  split; [apply Map_get_set_same|].
  split.
  { intros other Hother. apply Map_get_set_other. congruence. }
  split; [|split; reflexivity].
  apply Map_keys_set_present. unfold Map_has. now rewrite Hp.
Qed.

End Heartbeat.

(** C8 on the world of two players: a heartbeat of player b at 4000. *)
Lemma heartbeat_witness :
  let s := two_players_moving in
  let out := POST digits (Some (heartbeat "b")) s in
  fst out = Success true
  /\ Map_get "b" (GameState.players (gameState (snd out)))
     = Some (Player.mk "b" "bob" (Num (7020 # 97)) (Num (5800 # 97))
                       "#FF6B6B" 0 4000)
  /\ Map_get "a" (GameState.players (gameState (snd out)))
     = Map_get "a" (GameState.players (gameState s))
  /\ counter (snd out) = counter s.
Proof.
  cbv zeta.
  assert (Hb : Map_get "b" (GameState.players (gameState two_players_moving))
               = Some (Player.mk "b" "bob" (Num (7020 # 97)) (Num (5800 # 97))
                                 "#FF6B6B" 0 3000))
    by (vm_compute; reflexivity).
  destruct (heartbeat_touches_only_last_activity digits two_players_moving "b" _ Hb)
    as (Hans & Hrec & Hothers & _ & _ & Htoken).
  split; [exact Hans|]. split; [|split].
  - rewrite Hrec. vm_compute. reflexivity.
  - apply Hothers. discriminate.
  - exact Htoken.
Defined.
(** ** The reaper and the snapshot *)

Section DeleteAll.

Context {V : Type}.
Implicit Types (m : list (string * V)) (ids : list string).

(** Deleting the keys [ids] one by one keeps the entries whose key is
    not among them, in their order. *)
Lemma delete_all_filter ids m :
  fold_left (fun m id => Map_delete id m) ids m
  = filter (fun kv => negb (existsb (String.eqb (fst kv)) ids)) m.
Proof.
  revert m. induction ids as [|i ids IH]; intros m; simpl.
  - induction m as [|kv m IHm]; simpl; [reflexivity | now rewrite <- IHm].
  - rewrite IH. unfold Map_delete.
    induction m as [|kv m IHm]; simpl; trivial.
    destruct (String.eqb (fst kv) i); simpl; trivial.
    destruct (existsb _ ids); simpl; now rewrite IHm.
Qed.

Lemma Map_wf_functional m k v v' :
  Map_wf m -> In (k, v) m -> In (k, v') m -> v = v'.
Proof.
  intros Hwf H H'.
  apply (Map_In_get _ _ _ Hwf) in H. apply (Map_In_get _ _ _ Hwf) in H'.
  congruence.
Qed.

(** In a well-formed map the key of an entry is among the keys selected
    by [f] exactly when [f] selects the entry itself. *)
Lemma selected_key m (f : string * V -> bool) kv :
  Map_wf m -> In kv m ->
  existsb (String.eqb (fst kv)) (map fst (filter f m)) = f kv.
Proof.
  intros Hwf Hin.
  destruct (f kv) eqn:Hf.
  - apply existsb_exists. exists (fst kv). split; [|apply String.eqb_refl].
    apply in_map, filter_In. now split.
  - destruct (existsb _ _) eqn:E; trivial.
    apply existsb_exists in E. destruct E as (k & Hk & Heq).
    apply String.eqb_eq in Heq. subst k.
    apply in_map_iff in Hk. destruct Hk as ([k' v'] & Hfst & Hsel).
    apply filter_In in Hsel. destruct Hsel as [Hin' Hf'].
    destruct kv as [k v]. simpl in *. subst k'.
    rewrite (Map_wf_functional m k v v' Hwf Hin Hin') in Hf. congruence.
Qed.

Lemma Map_get_filter_wf m (f : V -> bool) k :
  Map_wf m ->
  Map_get k (filter (fun kv => f (snd kv)) m)
  = match Map_get k m with
    | Some v => if f v then Some v else None
    | None => None
    end.
Proof.
  unfold Map_wf, Map_keys.
  induction m as [|[k' v'] m IH]; simpl; trivial.
  intros Hwf. inversion Hwf as [|? ? Hnot Hrest]; subst.
  destruct (String.eqb k' k) eqn:E.
  - apply String.eqb_eq in E. subst k'.
    destruct (f v') eqn:Hf; simpl.
    + now rewrite String.eqb_refl.
    + destruct (Map_get k (filter _ m)) eqn:G; trivial.
      exfalso. apply Hnot. apply Map_get_In, filter_In in G.
      now apply (in_map fst _ (k, v)).
  - destruct (f v'); simpl; [rewrite E|]; now apply IH.
Qed.

End DeleteAll.

Section Reaper.

(** The players that a pass at time [now] leaves: those that are not
    stale, in their order. *)
Lemma cleanupPlayers_players s :
  Map_wf (GameState.players (gameState s)) ->
  GameState.players (world cleanupPlayers s)
  = filter (fun kv => negb (stale (next_now s) (snd kv)))
           (GameState.players (gameState s)).
Proof.
  intros Hwf. rewrite cleanupPlayers_world. cbv zeta.
  cbn [GameState.players]. rewrite delete_all_filter.
  apply filter_ext_in. intros kv Hin.
  now rewrite (selected_key _ (fun kv => stale (next_now s) (snd kv)) kv Hwf Hin).
Qed.

(** C5, as the route implements it: one pass of the reaper at time
    [now].  A player is stale when [now] minus the last activity exceeds
    10000.  The pass removes the stale players and nobody else: a player
    who is not stale is still there with an unchanged record.  The token
    is not incremented: it is assigned [now] once if somebody was
    removed, however many, and is left alone if nobody was, so it is
    greater than before exactly when somebody was removed and [now] is
    later than the token was; the food list is not touched. *)
Theorem reaper_evicts_exactly_the_stale s :
  Map_wf (GameState.players (gameState s)) ->
  let now := next_now s in
  let g := gameState s in
  let g' := world cleanupPlayers s in
  (forall p, stale now p = true <-> now - Player.lastUpdate p > 10000)
  /\ GameState.players g'
     = filter (fun kv => negb (stale now (snd kv))) (GameState.players g)
  /\ (forall playerId,
        Map_get playerId (GameState.players g')
        = match Map_get playerId (GameState.players g) with
          | Some p => if stale now p then None else Some p
          | None => None
          end)
  /\ GameState.lastUpdate g'
     = (if reaps now g then now else GameState.lastUpdate g)
  /\ (reaps now g = true <->
      exists playerId p,
        Map_get playerId (GameState.players g) = Some p /\ stale now p = true)
  /\ GameState.food g' = GameState.food g
  /\ (GameState.lastUpdate g < GameState.lastUpdate g'
      <-> reaps now g = true /\ GameState.lastUpdate g < now).
Proof.
  intros Hwf. cbv zeta.
  split; [|split; [|split; [|split; [|split; [|split]]]]].
  7: { rewrite cleanupPlayers_counter. unfold counter.
       destruct (reaps (next_now s) (gameState s)); split.
       - intros H. now split.
       - intros [_ H]. exact H.
       - lia.
       - intros [H _]. discriminate H. }
  - intros p. unfold stale, PLAYER_TIMEOUT. rewrite Z.gtb_lt. lia.
  - now apply cleanupPlayers_players.
  - intros playerId. rewrite cleanupPlayers_players by assumption.
    rewrite (Map_get_filter_wf _ (fun p => negb (stale (next_now s) p)))
      by assumption.
    destruct (Map_get playerId _) as [p|]; trivial.
    now destruct (stale (next_now s) p).
  - apply cleanupPlayers_counter.
  - unfold reaps, Map_values. rewrite existsb_exists. split.
    + intros (p & Hin & Hst). apply in_map_iff in Hin.
      destruct Hin as ([k p'] & Heq & Hin). simpl in Heq. subst p'.
      exists k, p. split; [now apply Map_In_get | assumption].
    + intros (k & p & Hget & Hst). exists p. split; [|assumption].
      apply Map_get_In in Hget. now apply (in_map snd _ (k, p)).
  - now rewrite cleanupPlayers_world.
Qed.

(** C6, as the route implements it: [GET] runs the reaper and then
    reads.  It answers with the public fields of the players, the food
    list and the token of the world that the reaper leaves, and leaves
    that world; when no player is stale at the time of the request the
    world is the one before the request. *)
Theorem GET_reaps_then_reads s :
  let out := GET s in
  let g := gameState s in
  let g' := gameState (snd out) in
  g' = (if reaps (next_now s) g then world cleanupPlayers s else g)
  /\ g' = world cleanupPlayers s
  /\ fst out
     = mkSnapshot (map publish (Map_values (GameState.players g')))
                  (GameState.food g') (GameState.lastUpdate g').
Proof.
  cbv zeta.
  assert (Hsame : gameState (snd (GET s)) = world cleanupPlayers s)
    by reflexivity.
  split; [|split; [exact Hsame | reflexivity]].
  rewrite Hsame.
  destruct (reaps (next_now s) (gameState s)) eqn:Hr; [reflexivity|].
  rewrite cleanupPlayers_world. cbv zeta. rewrite Hr.
  unfold reaps, Map_values in Hr.
  assert (Hnone : filter (fun kv => stale (next_now s) (snd kv))
                         (GameState.players (gameState s)) = []).
  { induction (GameState.players (gameState s)) as [|[k p] m IH];
      simpl in *; trivial.
    apply orb_false_iff in Hr. destruct Hr as [Hp Hm].
    rewrite Hp. now apply IH. }
  rewrite Hnone. simpl. now destruct (gameState s).
Qed.

End Reaper.

(** Keys stay distinct in the world of two players. *)
Lemma two_players_gone_quiet_wf :
  Map_wf (GameState.players (gameState two_players_gone_quiet)).
Proof.
  unfold Map_wf.
  replace (Map_keys (GameState.players (gameState two_players_gone_quiet)))
    with ["a"; "b"] by (vm_compute; reflexivity).
  repeat constructor; simpl; intuition discriminate.
Defined.

(** C5 on the quiet world at 13500: player b (silent for 10500 ms) is
    removed, player a (silent for 9500 ms) stays, the token becomes
    13500. *)
Lemma reaper_witness :
  let s := two_players_gone_quiet in
  let g' := world cleanupPlayers s in
  Map_wf (GameState.players (gameState s))
  /\ Map_keys (GameState.players g') = ["a"]
  /\ GameState.lastUpdate g' = 13500.
Proof.
  cbv zeta.
  destruct (reaper_evicts_exactly_the_stale two_players_gone_quiet
              two_players_gone_quiet_wf)
    as (_ & Hplayers & _ & Htoken & _ & _ & _).
  split; [exact two_players_gone_quiet_wf|]. split.
  - rewrite Hplayers. vm_compute. reflexivity.
  - rewrite Htoken. vm_compute. reflexivity.
Defined.

(** C5 as stated fails: player a moves at 14000 and the pass runs within
    that millisecond.  Player b, silent for 11000 ms, is removed, and the
    token, which the move had set to 14000, is assigned 14000: a player
    was removed and the token is what it was. *)
Lemma reaper_can_leave_lastUpdate_equal :
  let s := two_players_late_move in
  let g' := world cleanupPlayers s in
  next_now s = 14000
  /\ Map_has "b" (GameState.players (gameState s)) = true
  /\ Map_has "b" (GameState.players g') = false
  /\ reaps (next_now s) (gameState s) = true
  /\ counter s = 14000
  /\ GameState.lastUpdate g' = 14000
  /\ ~ counter s < GameState.lastUpdate g'.
Proof.
  vm_compute. repeat split; discriminate.
Qed.

(** C6 as stated fails: in the quiet world a [GET] at 13500 finds player
    b stale, removes that player and sets the token. *)
Lemma GET_is_not_a_pure_read :
  let s := two_players_gone_quiet in
  let out := GET s in
  Map_has "b" (GameState.players (gameState s)) = true
  /\ Map_has "b" (GameState.players (gameState (snd out))) = false
  /\ counter s = 4000
  /\ counter (snd out) = 13500
  /\ gameState (snd out) <> gameState s.
Proof.
  vm_compute. repeat split; discriminate.
Qed.
(** ** Distinct ids are an invariant of the route

    The reaper theorem assumes that no two entries of the player map
    share a key.  The map starts empty and every handler keeps the
    property. *)

Section Distinct.

Context {V : Type}.
Implicit Types (m : list (string * V)) (k : string) (v : V).

Lemma Map_keys_set_absent k v m :
  Map_has k m = false -> Map_keys (Map_set k v m) = Map_keys m ++ [k].
Proof.
  unfold Map_has, Map_keys.
  induction m as [|[k' v'] m IH]; simpl; trivial.
  destruct (String.eqb k' k); [discriminate|].
  intros H. simpl. now rewrite IH.
Qed.

Lemma Map_has_keys k m : Map_has k m = true <-> In k (Map_keys m).
Proof.
  unfold Map_has, Map_keys.
  induction m as [|[k' v'] m IH]; simpl.
  - split; [discriminate | tauto].
  - destruct (String.eqb k' k) eqn:E.
    + apply String.eqb_eq in E. tauto.
    + apply String.eqb_neq in E. rewrite IH. tauto.
Qed.

Lemma Map_set_wf k v m : Map_wf m -> Map_wf (Map_set k v m).
Proof.
  unfold Map_wf. intros Hwf.
  destruct (Map_has k m) eqn:E.
  - now rewrite Map_keys_set_present.
  - rewrite Map_keys_set_absent by assumption.
    apply NoDup_app; [assumption | repeat constructor; intros [] |].
    intros k' Hin [<-|[]].
    apply Map_has_keys in Hin. congruence.
Qed.

Lemma Map_filter_wf (f : string * V -> bool) m :
  Map_wf m -> Map_wf (filter f m).
Proof.
  unfold Map_wf, Map_keys.
  induction m as [|kv m IH]; simpl; trivial.
  intros Hwf. inversion Hwf as [|? ? Hnot Hrest]; subst.
  destruct (f kv); simpl; [|now apply IH].
  constructor; [|now apply IH].
  intros Hin. apply Hnot.
  apply in_map_iff in Hin. destruct Hin as (kv' & Heq & Hin).
  apply filter_In in Hin. rewrite <- Heq. now apply in_map.
Qed.

End Distinct.

Section Invariant.

Variable toString : Q -> string.

Lemma boot_wf clk rnd : Map_wf (GameState.players (gameState (boot clk rnd))).
Proof. constructor. Qed.

Lemma cleanupPlayers_wf s :
  Map_wf (GameState.players (gameState s)) ->
  Map_wf (GameState.players (world cleanupPlayers s)).
Proof.
  intros Hwf. rewrite cleanupPlayers_players by assumption.
  now apply Map_filter_wf.
Qed.

Lemma GET_wf s :
  Map_wf (GameState.players (gameState s)) ->
  Map_wf (GameState.players (gameState (snd (GET s)))).
Proof. apply cleanupPlayers_wf. Qed.

Lemma POST_wf request s :
  Map_wf (GameState.players (gameState s)) ->
  Map_wf (GameState.players (gameState (snd (POST toString request s)))).
Proof.
  intros Hwf.
  destruct request as [[id name|id px py|id fid|id|id|ty|]|];
    [ | | | | | exact Hwf | exact Hwf | exact Hwf ].
  - rewrite POST_join. cbv zeta. cbn [snd gameState GameState.players].
    apply Map_set_wf.
    destruct (initializeFood_frame toString (ticked s)) as (Hplayers & _).
    cbv zeta in Hplayers. now rewrite Hplayers.
  - destruct (Map_get id (GameState.players (gameState s))) eqn:E.
    + rewrite (POST_move_present _ _ _ _ _ _ E). now apply Map_set_wf.
    + now rewrite POST_move_absent.
  - destruct (findIndex fid (GameState.food (gameState s))) eqn:F.
    + destruct (Map_get id (GameState.players (gameState s))) eqn:E.
      * rewrite (POST_collectFood_hit _ _ _ _ _ _ E F). now apply Map_set_wf.
      * now rewrite POST_collectFood_stranger.
    + now rewrite POST_collectFood_gone.
  - destruct (Map_get id (GameState.players (gameState s))) eqn:E.
    + rewrite (POST_heartbeat_present _ _ _ _ E). now apply Map_set_wf.
    + now rewrite POST_heartbeat_absent.
  - destruct (Map_has id (GameState.players (gameState s))) eqn:E.
    + rewrite POST_leave_present by assumption. now apply Map_filter_wf.
    + now rewrite POST_leave_absent.
Qed.

End Invariant.
(** ** The pending move of the client *)

Section Predictor.

Import Client.

(** The queue is one slot. *)
Lemma pending_at_most_one (c : Client.t) : (List.length (pending c) <= 1)%nat.
Proof. unfold pending. destruct (movementQueueRef c); simpl; lia. Qed.

(** A frame either leaves the queue alone or puts the position it just
    computed into the slot, whatever the slot held; that position is
    also the one now shown for the local player. *)
Lemma gameLoop_overwrites (c : Client.t) :
  let c' := fst (gameLoop c) in
  c' = c
  \/ (movementQueueRef c' = Some (lastPositionRef c')
      /\ exists p,
           Map_get (myPlayerId c) (players c') = Some p
           /\ (x p, y p) = lastPositionRef c').
Proof.
  unfold gameLoop.
  destruct (gameState c); try (left; reflexivity).
  destruct (String.eqb (myPlayerId c) ""); try (left; reflexivity).
  destruct (Map_get (myPlayerId c) (players c)) as [myPlayer|];
    try (left; reflexivity).
  cbv zeta. cbn [fst].
  match goal with |- context [if ?b then _ else c] => destruct b end.
  - right. cbn [movementQueueRef lastPositionRef players].
    split; [reflexivity|].
    eexists. split; [apply Map_get_set_same | reflexivity].
  - left. reflexivity.
Qed.

(** One run of [updateGame] sends the content of the slot, if the
    closure holds a player id, and nothing else as a move. *)
Lemma updateGame_sends_pending capturedId capturedUpdate posted fetched c :
  moves (snd (updateGame capturedId capturedUpdate posted fetched c))
  = if String.eqb capturedId "" then [] else pending c.
Proof.
  unfold updateGame, pending.
  destruct (movementQueueRef c) as [[qx qy]|];
    destruct (String.eqb capturedId ""); cbv zeta;
    destruct posted; destruct fetched; reflexivity.
Qed.

End Predictor.

(** With no player id in the closure the tick sends no move at all. *)
Remark updateGame_without_id capturedUpdate posted fetched c :
  Client.moves (snd (Client.updateGame "" capturedUpdate posted fetched c)) = [].
Proof. now rewrite updateGame_sends_pending. Qed.

(** * Further properties of the route *)

(** ** Runs and what every request preserves *)

Section Runs.

Variable toString : Q -> string.

(** An invariant of every request is an invariant of every run. *)
Lemma run_invariant (I : Server -> Prop) :
  (forall c s, I s -> I (step toString c s)) ->
  forall calls s, I s -> I (run toString calls s).
Proof.
  intros Hstep calls. unfold run.
  induction calls as [|c calls IH]; intros s Hs; simpl; [exact Hs|].
  apply IH, Hstep, Hs.
Qed.

(** The same with a condition on the requests. *)
Lemma run_invariant_on (ok : Call -> Prop) (I : Server -> Prop) :
  (forall c s, ok c -> I s -> I (step toString c s)) ->
  forall calls s, Forall ok calls -> I s -> I (run toString calls s).
Proof.
  intros Hstep calls. unfold run.
  induction calls as [|c calls IH]; intros s Hok Hs; simpl; [exact Hs|].
  inversion Hok; subst. apply IH; [assumption|]. now apply Hstep.
Qed.

Lemma cleanupPlayers_store s :
  snd (cleanupPlayers s) = with_world (world cleanupPlayers s) (ticked s).
Proof.
  unfold world, cleanupPlayers, with_world, ticked, bind, read. cbv zeta.
  cbn [fst snd Date_now].
  destruct (Nat.ltb 0 _); reflexivity.
Qed.

Lemma initializeFood_entropy s :
  entropy (snd (initializeFood toString s)) = entropy s.
Proof.
  unfold initializeFood. generalize FOOD_COUNT. intros n.
  unfold bind, read, modify. cbv zeta. cbn [fst snd].
  destruct (Nat.eqb _ 0); cbn [fst snd entropy ret]; [|reflexivity].
  generalize s. induction n as [|n IH]; intros s0; [reflexivity|].
  cbn [Array_from]. unfold bind at 1. cbv zeta. unfold bind at 1. cbv zeta.
  cbn [snd ret]. now rewrite IH.
Qed.

Lemma POST_entropy request s :
  entropy (snd (POST toString request s)) = entropy s.
Proof.
  destruct request as [[id name|id px py|id fid|id|id|ty|]|];
    [ | | | | | reflexivity | reflexivity | reflexivity ].
  - rewrite POST_join. cbv zeta. cbn [snd entropy].
    now rewrite initializeFood_entropy.
  - destruct (Map_get id (GameState.players (gameState s))) eqn:E.
    + now rewrite (POST_move_present _ _ _ _ _ _ E).
    + now rewrite POST_move_absent.
  - destruct (findIndex fid (GameState.food (gameState s))) eqn:F.
    + destruct (Map_get id (GameState.players (gameState s))) eqn:E.
      * now rewrite (POST_collectFood_hit _ _ _ _ _ _ E F).
      * now rewrite POST_collectFood_stranger.
    + now rewrite POST_collectFood_gone.
  - destruct (Map_get id (GameState.players (gameState s))) eqn:E.
    + now rewrite (POST_heartbeat_present _ _ _ _ E).
    + now rewrite POST_heartbeat_absent.
  - destruct (Map_has id (GameState.players (gameState s))) eqn:E.
    + now rewrite POST_leave_present.
    + now rewrite POST_leave_absent.
Qed.

Lemma GET_store s : snd (GET s) = snd (cleanupPlayers s).
Proof. reflexivity. Qed.

Lemma step_entropy c s : entropy (step toString c s) = entropy s.
Proof.
  destruct c as [|request]; unfold step.
  - now rewrite GET_store, cleanupPlayers_store.
  - apply POST_entropy.
Qed.

Lemma run_entropy calls s : entropy (run toString calls s) = entropy s.
Proof.
  apply (run_invariant (fun s' => entropy s' = entropy s)); [|reflexivity].
  intros c s' H. now rewrite step_entropy.
Qed.

End Runs.

(** ** Properties of all entries of a map *)

Section Entries.

Context {V : Type}.
Implicit Types (m : list (string * V)) (k : string) (v : V).

Lemma Map_set_Forall (P : string * V -> Prop) k v m :
  Forall P m -> P (k, v) -> Forall P (Map_set k v m).
Proof.
  intros Hm Hv. induction Hm as [|[k' v'] m Hkv Hm IH]; simpl.
  - now constructor.
  - destruct (String.eqb k' k); constructor; assumption.
Qed.

Lemma Map_delete_Forall (P : string * V -> Prop) k m :
  Forall P m -> Forall P (Map_delete k m).
Proof.
  intros Hm. unfold Map_delete. apply Forall_forall. intros kv Hin.
  apply filter_In in Hin. rewrite Forall_forall in Hm. now apply Hm.
Qed.

Lemma Map_get_Forall (P : string * V -> Prop) k v m :
  Forall P m -> Map_get k m = Some v -> P (k, v).
Proof.
  intros Hm Hget. rewrite Forall_forall in Hm. now apply Hm, Map_get_In.
Qed.

Lemma Map_set_absent k v m :
  Map_has k m = false -> Map_set k v m = m ++ [(k, v)].
Proof.
  unfold Map_has.
  induction m as [|[k' v'] m IH]; simpl; trivial.
  destruct (String.eqb k' k); [discriminate|].
  intros H. now rewrite IH.
Qed.

Lemma Map_delete_absent k m : Map_has k m = false -> Map_delete k m = m.
Proof.
  unfold Map_has, Map_delete.
  induction m as [|[k' v'] m IH]; simpl; trivial.
  destruct (String.eqb k' k); [discriminate|].
  intros H. simpl. now rewrite IH.
Qed.

End Entries.

(** The players that one pass of the reaper leaves, without any
    assumption on the map: the entries whose key is not the key of a
    stale entry. *)
Lemma cleanupPlayers_Forall (P : string * Player.t -> Prop) s :
  Forall P (GameState.players (gameState s)) ->
  Forall P (GameState.players (world cleanupPlayers s)).
Proof.
  intros H. rewrite cleanupPlayers_world. cbv zeta. cbn [GameState.players].
  rewrite delete_all_filter. apply Forall_forall. intros kv Hin.
  apply filter_In in Hin. rewrite Forall_forall in H. now apply H.
Qed.

(** ** The food pool *)

(** A random number scaled by a non-negative limit stays below it. *)
Lemma scaled_within (r : Q) (limit : Z) :
  (0 <= r /\ r < 1)%Q -> 0 <= limit ->
  within 0 (inject_Z limit) (Num (r * inject_Z limit)).
Proof.
  intros [H0 H1] Hlimit. simpl.
  assert (Hl : (0 <= inject_Z limit)%Q).
  { change 0%Q with (inject_Z 0). now rewrite <- Zle_Qle. }
  split.
  - now apply Qmult_le_0_compat.
  - setoid_replace (inject_Z limit) with (1 * inject_Z limit)%Q at 2 by ring.
    apply Qmult_le_compat_r; [now apply Qlt_le_weak | assumption].
Qed.

(** With a random number of [[0, 1)] the index is in range: [pick]
    returns an element of the palette. *)
Lemma pick_In (colors : list string) (r : Q) :
  colors <> [] -> (0 <= r /\ r < 1)%Q -> In (pick colors r) colors.
Proof.
  intros Hne [H0 H1]. unfold pick. apply nth_In.
  set (len := Z.of_nat (List.length colors)).
  assert (Hlen : 0 < len).
  { unfold len. destruct colors; [contradiction | simpl; lia]. }
  assert (Hq : (0 < inject_Z len)%Q).
  { change 0%Q with (inject_Z 0). now rewrite <- Zlt_Qlt. }
  assert (Hlow : 0 <= Qfloor (r * inject_Z len)).
  { change 0 with (Qfloor 0). apply Qfloor_resp_le.
    apply Qmult_le_0_compat; [assumption | now apply Qlt_le_weak]. }
  assert (Hup : Qfloor (r * inject_Z len) < len).
  { rewrite Zlt_Qlt. apply Qle_lt_trans with (r * inject_Z len)%Q.
    - apply Qfloor_le.
    - setoid_replace (inject_Z len) with (1 * inject_Z len)%Q at 2 by ring.
      now apply Qmult_lt_compat_r. }
  unfold len in *. lia.
Qed.

Section Pool.

Variable toString : Q -> string.

Lemma Array_from_length {A : Type} (gen : M A) n s :
  List.length (fst (Array_from n gen s)) = n.
Proof.
  revert s. induction n as [|n IH]; intros s; [reflexivity|].
  simpl. unfold bind. simpl. now rewrite IH.
Qed.

(** What holds of every generated item holds of the whole array, if the
    generator keeps the condition [I] on the store. *)
Lemma Array_from_Forall {A : Type} (gen : M A)
      (I : Server -> Prop) (P : A -> Prop) :
  (forall s, I s -> P (fst (gen s)) /\ I (snd (gen s))) ->
  forall n s, I s ->
    Forall P (fst (Array_from n gen s)) /\ I (snd (Array_from n gen s)).
Proof.
  intros Hgen n. induction n as [|n IH]; intros s Hs.
  - split; [constructor | exact Hs].
  - simpl. unfold bind. simpl.
    destruct (Hgen s Hs) as [Hp Hs'].
    destruct (IH (snd (gen s)) Hs') as [Hall Hend].
    split; [now constructor | exact Hend].
Qed.

(** Every item costs one reading of the clock and four random numbers. *)
Lemma Array_from_generateFood_cost n s :
  let s' := snd (Array_from n (generateFood toString) s) in
  ticks s' = (ticks s + n)%nat /\ draws s' = (draws s + 4 * n)%nat.
Proof.
  cbv zeta. revert s. induction n as [|n IH]; intros s.
  - cbn. lia.
  - change (Array_from (S n) (generateFood toString) s)
      with (let r := generateFood toString s in
            let r' := Array_from n (generateFood toString) (snd r) in
            (fst r :: fst r', snd r')).
    cbv zeta. cbn [snd].
    destruct (IH (snd (generateFood toString s))) as [Ht Hd].
    rewrite Ht, Hd. cbn. lia.
Qed.

(** The item that [generateFood] builds from the next clock reading and
    the next four random numbers. *)
Lemma generateFood_value s :
  fst (generateFood toString s)
  = Food.mk ("food-" ++ toString (inject_Z (clock s (ticks s))) ++ "-"
               ++ toString (entropy s (draws s)))%string
            (Num (entropy s (S (draws s)) * inject_Z (CANVAS_WIDTH - FOOD_SIZE)))
            (Num (entropy s (S (S (draws s))) * inject_Z (CANVAS_HEIGHT - FOOD_SIZE)))
            (pick foodColors (entropy s (S (S (S (draws s)))))).
Proof. reflexivity. Qed.

Lemma generateFood_in_field s :
  fair (entropy s) ->
  let f := fst (generateFood toString s) in
  food_in_field f /\ In (Food.color f) foodColors.
Proof.
  intros Hfair. cbv zeta. rewrite generateFood_value.
  unfold food_in_field. cbn [Food.x Food.y Food.color].
  split; [split|].
  - apply (scaled_within _ 792); [apply Hfair | lia].
  - apply (scaled_within _ 592); [apply Hfair | lia].
  - apply pick_In; [discriminate | apply Hfair].
Qed.

(** X1: [initializeFood] looks at the pool only.  A pool that holds an
    item is left alone, and so is the whole store: no clock reading, no
    random number is used.  An empty pool is filled with exactly 50 items,
    each inside [0, 792] x [0, 592] and coloured from the food palette,
    at the cost of 50 clock readings and 200 random numbers; players and
    token are not touched. *)
Theorem initializeFood_fills_an_empty_pool_only s :
  fair (entropy s) ->
  let s' := snd (initializeFood toString s) in
  match GameState.food (gameState s) with
  | _ :: _ => s' = s
  | [] =>
      List.length (GameState.food (gameState s')) = FOOD_COUNT
      /\ Forall (fun f => food_in_field f /\ In (Food.color f) foodColors)
                (GameState.food (gameState s'))
      /\ ticks s' = (ticks s + FOOD_COUNT)%nat
      /\ draws s' = (draws s + 4 * FOOD_COUNT)%nat
      /\ GameState.players (gameState s') = GameState.players (gameState s)
      /\ GameState.lastUpdate (gameState s') = GameState.lastUpdate (gameState s)
  end.
Proof.
  intros Hfair. unfold initializeFood. generalize FOOD_COUNT. intros n.
  unfold bind, read, modify. cbv zeta. cbn [fst snd].
  destruct (GameState.food (gameState s)) as [|f l] eqn:E;
    cbn [List.length Nat.eqb]; [|reflexivity].
  cbn [fst snd gameState ticks draws GameState.set_food GameState.food
       GameState.players GameState.lastUpdate].
  destruct (Array_from_generateFood_cost n s) as [Ht Hd].
  destruct (Array_from_Forall (generateFood toString)
              (fun s0 => fair (entropy s0))
              (fun f => food_in_field f /\ In (Food.color f) foodColors)
              (fun s0 H0 => conj (generateFood_in_field s0 H0) H0) n s Hfair)
    as [Hall _].
  rewrite Array_from_length, (Array_from_world _ n (generateFood_world toString)).
  repeat split; assumption.
Qed.

End Pool.

(** ** Invariants of every run *)

(** Case analysis on a request and on what it finds in the world: each
    case rewrites [POST] into its answer and the store it leaves. *)
Ltac post_cases toString request s :=
  let E := fresh "Hget" in
  let F := fresh "Hfind" in
  destruct request as [[id name|id px py|id fid|id|id|ty|]|];
  [ rewrite (POST_join toString s id name); cbv zeta
  | destruct (Map_get id (GameState.players (gameState s)))
      as [player|] eqn:E;
    [ rewrite (POST_move_present toString s id px py player E)
    | rewrite (POST_move_absent toString s id px py E) ]
  | destruct (Map_get id (GameState.players (gameState s)))
      as [player|] eqn:E;
    [ destruct (findIndex fid (GameState.food (gameState s)))
        as [foodIndex|] eqn:F;
      [ rewrite (POST_collectFood_hit toString s id fid player foodIndex E F);
        cbv zeta
      | rewrite (POST_collectFood_gone toString s id fid F) ]
    | rewrite (POST_collectFood_stranger toString s id fid E) ]
  | destruct (Map_get id (GameState.players (gameState s)))
      as [player|] eqn:E;
    [ rewrite (POST_heartbeat_present toString s id player E)
    | rewrite (POST_heartbeat_absent toString s id E) ]
  | destruct (Map_has id (GameState.players (gameState s))) eqn:E;
    [ rewrite (POST_leave_present toString s id E)
    | rewrite (POST_leave_absent toString s id E) ]
  | change (POST toString (Some (other ty)) s)
      with (Failed "Unknown action" 400, ticked s)
  | change (POST toString (Some null) s)
      with (Failed "Internal server error" 500, ticked s)
  | change (POST toString None s)
      with (Failed "Internal server error" 500, s) ];
  cbn [fst snd gameState with_world
       GameState.players GameState.food GameState.lastUpdate
       GameState.set_players];
  try change (gameState (ticked s)) with (gameState s).

Section Shape.

Variable toString : Q -> string.

Lemma initializeFood_players s :
  GameState.players (gameState (snd (initializeFood toString (ticked s))))
  = GameState.players (gameState s).
Proof.
  destruct (initializeFood_frame toString (ticked s)) as (H & _).
  exact H.
Qed.

Lemma initializeFood_food s :
  GameState.food (gameState (snd (initializeFood toString s)))
  = match GameState.food (gameState s) with
    | [] => fst (Array_from FOOD_COUNT (generateFood toString) s)
    | _ :: _ => GameState.food (gameState s)
    end.
Proof.
  unfold initializeFood. generalize FOOD_COUNT. intros n.
  unfold bind, read, modify. cbv zeta. cbn [fst snd].
  destruct (GameState.food (gameState s)) as [|f l] eqn:E;
    cbn [List.length Nat.eqb]; [reflexivity|].
  cbn [snd ret]. exact E.
Qed.

(** Dropping one item and appending one keeps the length. *)
Lemma splice1_push_length foodId (l : list Food.t) i (f : Food.t) :
  findIndex foodId l = Some i ->
  List.length (splice1 i l ++ [f]) = List.length l.
Proof.
  intros H.
  destruct (findIndex_Some _ _ _ H) as (before & eaten & rest & Hl & _ & _ & _ & Hsp).
  rewrite Hsp, Hl. repeat rewrite length_app. simpl. lia.
Qed.

(** What the invariants below say of one store. *)
Local Abbreviation distinct s := (Map_wf (GameState.players (gameState s))).
Local Abbreviation filed s :=
  (Forall (fun kv => Player.id (snd kv) = fst kv)
          (GameState.players (gameState s))).
Local Abbreviation scored s :=
  (Forall (fun kv => 0 <= Player.score (snd kv))
          (GameState.players (gameState s))).
Local Abbreviation pooled s :=
  (List.length (GameState.food (gameState s)) = FOOD_COUNT
   \/ (GameState.food (gameState s) = []
       /\ GameState.players (gameState s) = [])).

Lemma step_filed c s : filed s -> filed (step toString c s).
Proof.
  intros H. destruct c as [|request]; unfold step.
  - rewrite GET_store. now apply cleanupPlayers_Forall.
  - post_cases toString request s; trivial.
    + apply Map_set_Forall; [now rewrite initializeFood_players | reflexivity].
    + apply Map_set_Forall; [assumption|].
      apply (Map_get_Forall _ _ _ _ H Hget).
    + apply Map_set_Forall; [assumption|].
      apply (Map_get_Forall _ _ _ _ H Hget).
    + apply Map_set_Forall; [assumption|].
      apply (Map_get_Forall _ _ _ _ H Hget).
    + now apply Map_delete_Forall.
Qed.

Lemma step_scored c s : scored s -> scored (step toString c s).
Proof.
  intros H. destruct c as [|request]; unfold step.
  - rewrite GET_store. now apply cleanupPlayers_Forall.
  - post_cases toString request s; trivial.
    + apply Map_set_Forall; [now rewrite initializeFood_players | simpl; lia].
    + apply Map_set_Forall; [assumption|].
      apply (Map_get_Forall _ _ _ _ H Hget).
    + apply Map_set_Forall; [assumption|].
      pose proof (Map_get_Forall _ _ _ _ H Hget) as Hs. simpl in *. lia.
    + apply Map_set_Forall; [assumption|].
      apply (Map_get_Forall _ _ _ _ H Hget).
    + now apply Map_delete_Forall.
Qed.

Lemma step_pooled c s : pooled s -> pooled (step toString c s).
Proof.
  intros H. destruct c as [|request]; unfold step.
  - rewrite GET_store.
    change (gameState (snd (cleanupPlayers s))) with (world cleanupPlayers s).
    rewrite cleanupPlayers_world. cbv zeta.
    cbn [GameState.food GameState.players].
    destruct H as [H|[Hf Hp]]; [now left|]. right.
    rewrite Hp. split; [assumption | reflexivity].
  - post_cases toString request s; trivial.
    + left. rewrite initializeFood_food.
      change (GameState.food (gameState (ticked s)))
        with (GameState.food (gameState s)).
      destruct H as [H|[Hf Hp]].
      * destruct (GameState.food (gameState s)); [|exact H].
        apply Array_from_length.
      * rewrite Hf. apply Array_from_length.
    + left. destruct H as [H|[Hf Hp]]; [exact H|].
      rewrite Hp in Hget. discriminate.
    + left. rewrite (splice1_push_length _ _ _ _ Hfind).
      destruct H as [H|[Hf Hp]]; [exact H|].
      rewrite Hp in Hget. discriminate.
    + left. destruct H as [H|[Hf Hp]]; [exact H|].
      rewrite Hp in Hget. discriminate.
    + left. destruct H as [H|[Hf Hp]]; [exact H|].
      rewrite Hp in Hget. discriminate.
Qed.

Lemma step_distinct c s : distinct s -> distinct (step toString c s).
Proof.
  intros H. destruct c as [|request]; unfold step.
  - now apply GET_wf.
  - now apply POST_wf.
Qed.

End Shape.

Lemma dice_fair : fair dice.
Proof.
  intros n. unfold dice, Qle, Qlt. cbn [Qnum Qden].
  assert (H : (n mod 97 < 97)%nat) by (apply Nat.mod_upper_bound; discriminate).
  lia.
Qed.

Section Bounds.

Variable toString : Q -> string.

Lemma splice1_Forall (P : Food.t -> Prop) foodId (l : list Food.t) i :
  findIndex foodId l = Some i -> Forall P l -> Forall P (splice1 i l).
Proof.
  intros H Hall.
  destruct (findIndex_Some _ _ _ H) as (before & eaten & rest & Hl & _ & _ & _ & Hsp).
  rewrite Hsp. rewrite Hl in Hall.
  apply Forall_app in Hall. destruct Hall as [Hb Hr].
  apply Forall_app. split; [assumption|]. now inversion Hr.
Qed.

Local Abbreviation food_ok :=
  (fun f => food_in_field f /\ In (Food.color f) foodColors).
Local Abbreviation player_ok :=
  (fun kv : string * Player.t =>
     in_field (snd kv) /\ In (Player.color (snd kv)) playerColors).

Lemma step_food_ok c s :
  fair (entropy s) ->
  Forall food_ok (GameState.food (gameState s)) ->
  Forall food_ok (GameState.food (gameState (step toString c s))).
Proof.
  intros Hfair H. destruct c as [|request]; unfold step.
  - rewrite GET_store.
    change (gameState (snd (cleanupPlayers s))) with (world cleanupPlayers s).
    now rewrite cleanupPlayers_world.
  - post_cases toString request s; trivial.
    + rewrite initializeFood_food.
      change (GameState.food (gameState (ticked s)))
        with (GameState.food (gameState s)).
      destruct (GameState.food (gameState s)); [|exact H].
      apply (Array_from_Forall (generateFood toString)
               (fun s0 => fair (entropy s0)) food_ok
               (fun s0 H0 => conj (generateFood_in_field toString s0 H0) H0)
               FOOD_COUNT (ticked s) Hfair).
    + apply Forall_app. split.
      * now apply (splice1_Forall _ fid).
      * constructor; [|constructor].
        now apply generateFood_in_field.
Qed.

Lemma step_player_ok c s :
  numeric c -> fair (entropy s) ->
  Forall player_ok (GameState.players (gameState s)) ->
  Forall player_ok (GameState.players (gameState (step toString c s))).
Proof.
  intros Hnum Hfair H. destruct c as [|request]; unfold step.
  - rewrite GET_store. now apply cleanupPlayers_Forall.
  - post_cases toString request s; trivial.
    + apply Map_set_Forall; [now rewrite initializeFood_players|].
      unfold in_field. cbn [snd Player.x Player.y Player.color].
      rewrite initializeFood_entropy.
      change (entropy (ticked s)) with (entropy s).
      split; [split|].
      * apply (scaled_within _ 780); [apply Hfair | lia].
      * apply (scaled_within _ 580); [apply Hfair | lia].
      * apply pick_In; [discriminate | apply Hfair].
    + destruct Hnum as [Hx Hy].
      apply Map_set_Forall; [assumption|].
      pose proof (Map_get_Forall _ _ _ _ H Hget) as [_ Hc].
      unfold in_field. cbn [snd Player.x Player.y Player.color
                             Player.set_lastUpdate Player.set_y Player.set_x] in *.
      split; [split|exact Hc].
      * apply (clamp_within 780 px); [lia | assumption].
      * apply (clamp_within 580 py); [lia | assumption].
    + apply Map_set_Forall; [assumption|].
      apply (Map_get_Forall _ _ _ _ H Hget).
    + apply Map_set_Forall; [assumption|].
      apply (Map_get_Forall _ _ _ _ H Hget).
    + now apply Map_delete_Forall.
Qed.

(** X2: in every world that the route can reach, the pool holds exactly
    50 items as soon as a player is present; before the first join it is
    empty.  No request makes it grow or shrink afterwards. *)
Theorem pool_is_full_when_a_player_is_present clk rnd calls :
  let g := gameState (run toString calls (boot clk rnd)) in
  List.length (GameState.food g) = FOOD_COUNT
  \/ (GameState.food g = [] /\ GameState.players g = []).
Proof.
  cbv zeta.
  apply (run_invariant toString
           (fun s => List.length (GameState.food (gameState s)) = FOOD_COUNT
                     \/ (GameState.food (gameState s) = []
                         /\ GameState.players (gameState s) = []))).
  - intros c s. apply step_pooled.
  - right. split; reflexivity.
Qed.

(** X3: in every world that the route can reach, no two players share an
    id, every record is stored under the id it carries, and no score is
    negative; an answer of [GET] never lists an id twice. *)
Theorem player_records_are_well_formed clk rnd calls :
  let s := run toString calls (boot clk rnd) in
  let players := GameState.players (gameState s) in
  NoDup (Map_keys players)
  /\ Forall (fun kv => Player.id (snd kv) = fst kv) players
  /\ Forall (fun kv => 0 <= Player.score (snd kv)) players
  /\ NoDup (map pub_id (snap_players (fst (GET s)))).
Proof.
  cbv zeta.
  set (s := run toString calls (boot clk rnd)).
  assert (Hwf : Map_wf (GameState.players (gameState s))).
  { apply (run_invariant toString
             (fun s => Map_wf (GameState.players (gameState s)))).
    - intros c s0. apply step_distinct.
    - apply boot_wf. }
  assert (Hfiled : Forall (fun kv => Player.id (snd kv) = fst kv)
                          (GameState.players (gameState s))).
  { apply (run_invariant toString
             (fun s => Forall (fun kv => Player.id (snd kv) = fst kv)
                              (GameState.players (gameState s)))).
    - intros c s0. apply step_filed.
    - constructor. }
  split; [exact Hwf|]. split; [exact Hfiled|]. split.
  - apply (run_invariant toString
             (fun s => Forall (fun kv => 0 <= Player.score (snd kv))
                              (GameState.players (gameState s)))).
    + intros c s0. apply step_scored.
    + constructor.
  - change (snap_players (fst (GET s)))
      with (map publish (Map_values (GameState.players (world cleanupPlayers s)))).
    pose proof (cleanupPlayers_wf s Hwf) as Hwf'.
    pose proof (cleanupPlayers_Forall _ s Hfiled) as Hfiled'.
    unfold Map_wf, Map_keys, Map_values in *.
    rewrite map_map, map_map.
    erewrite map_ext_in; [exact Hwf'|].
    intros kv Hin. rewrite Forall_forall in Hfiled'.
    now apply Hfiled'.
Qed.

(** X4: with [Math.random()] in [[0, 1)], every item of the pool of every
    reachable world lies inside [0, 792] x [0, 592] and has a colour of
    the food palette. *)
Theorem food_stays_in_field clk rnd calls :
  fair rnd ->
  Forall (fun f => food_in_field f /\ In (Food.color f) foodColors)
         (GameState.food (gameState (run toString calls (boot clk rnd)))).
Proof.
  intros Hfair.
  apply (run_invariant toString
           (fun s => fair (entropy s)
                     /\ Forall food_ok (GameState.food (gameState s))));
    [|split; [exact Hfair | constructor]].
  intros c s [Hf H]. split.
  - now rewrite step_entropy.
  - now apply step_food_ok.
Qed.

(** X5: with [Math.random()] in [[0, 1)] and moves that carry numbers,
    every player of every reachable world stands inside
    [0, 780] x [0, 580] and has a colour of the player palette. *)
Theorem players_stay_in_field clk rnd calls :
  fair rnd ->
  Forall numeric calls ->
  Forall (fun kv => in_field (snd kv)
                    /\ In (Player.color (snd kv)) playerColors)
         (GameState.players (gameState (run toString calls (boot clk rnd)))).
Proof.
  intros Hfair Hnum.
  apply (run_invariant_on toString numeric
           (fun s => fair (entropy s)
                     /\ Forall player_ok (GameState.players (gameState s))));
    [|exact Hnum|split; [exact Hfair | constructor]].
  intros c s Hc [Hf H]. split.
  - now rewrite step_entropy.
  - now apply step_player_ok.
Qed.

End Bounds.

(** X4 on a run with a join, a collection and a snapshot. *)
Lemma food_stays_in_field_witness :
  let calls :=
    [ call_POST (Some (join "a" "ann"));
      call_POST (Some (collectFood "a" "food-2000-8/97"));
      call_GET ] in
  fair dice
  /\ Forall (fun f => food_in_field f /\ In (Food.color f) foodColors)
       (GameState.food (gameState (run digits calls (boot same_millisecond dice)))).
Proof.
  split; [exact dice_fair|].
  apply (food_stays_in_field digits same_millisecond dice _ dice_fair).
Defined.

(** X5 on a run with two joins, a move far outside the field, a snapshot
    and a leave. *)
Lemma players_stay_in_field_witness :
  let calls :=
    [ call_POST (Some (join "a" "ann"));
      call_POST (Some (move "a" (Num (-5)) PosInfinity));
      call_GET;
      call_POST (Some (join "b" "bob"));
      call_POST (Some (leave "a")) ] in
  fair dice
  /\ Forall numeric calls
  /\ Forall (fun kv => in_field (snd kv)
                       /\ In (Player.color (snd kv)) playerColors)
       (GameState.players
          (gameState (run digits calls (boot same_millisecond dice)))).
Proof.
  cbv zeta.
  assert (Hnum : Forall numeric
            [ call_POST (Some (join "a" "ann"));
              call_POST (Some (move "a" (Num (-5)) PosInfinity));
              call_GET;
              call_POST (Some (join "b" "bob"));
              call_POST (Some (leave "a")) ]).
  { repeat constructor; discriminate. }
  split; [exact dice_fair|]. split; [exact Hnum|].
  apply (players_stay_in_field digits same_millisecond dice _ dice_fair Hnum).
Defined.

(** ** Requests that find nothing to do *)

Section Requests.

Variable toString : Q -> string.

(** X6: a request that cannot be applied leaves the world as it is.  A
    move, a heartbeat or a leave for an id that is not a player is
    answered success:true, a collection that finds no player or no such
    item success:false, an unknown type by status 400, and both the body
    null and a body that does not parse by status 500.  Every one of
    them reads the clock once, except the body that does not parse, which
    is answered before the clock is read. *)
Theorem request_without_effect_changes_nothing request s :
  changes (gameState s) request = false ->
  (forall playerId,
     request = Some (heartbeat playerId) ->
     Map_has playerId (GameState.players (gameState s)) = false) ->
  let out := POST toString request s in
  gameState (snd out) = gameState s
  /\ fst out = match request with
               | Some (collectFood _ _) => Success false
               | Some (other _) => Failed "Unknown action" 400
               | Some null | None => Failed "Internal server error" 500
               | _ => Success true
               end
  /\ ticks (snd out) = match request with
                       | None => ticks s
                       | _ => S (ticks s)
                       end.
Proof.
  intros Hno Hbeat. cbv zeta.
  assert (Hhas : forall id p,
            Map_get id (GameState.players (gameState s)) = Some p ->
            Map_has id (GameState.players (gameState s)) = true).
  { intros id p H. unfold Map_has. now rewrite H. }
  unfold changes in Hno.
  post_cases toString request s;
    try (repeat split; reflexivity); try discriminate.
  - rewrite (Hhas _ _ Hget) in Hno. discriminate.
  - rewrite (Hhas _ _ Hget) in Hno. discriminate.
  - specialize (Hhas id player Hget).
    rewrite (Hbeat id eq_refl) in Hhas. discriminate.
Qed.

(** X7: a leave of a present player removes that player and nobody else,
    keeps the food, and stamps the token with the time of the request; a
    second leave finds nothing to remove and leaves that world as it
    is. *)
Theorem leave_removes_that_player_once s playerId :
  Map_has playerId (GameState.players (gameState s)) = true ->
  let out := POST toString (Some (leave playerId)) s in
  let g := gameState s in
  let g' := gameState (snd out) in
  fst out = Success true
  /\ Map_get playerId (GameState.players g') = None
  /\ (forall other, other <> playerId ->
        Map_get other (GameState.players g')
        = Map_get other (GameState.players g))
  /\ GameState.food g' = GameState.food g
  /\ GameState.lastUpdate g' = next_now s
  /\ POST toString (Some (leave playerId)) (snd out)
     = (Success true, ticked (snd out)).
Proof.
  intros Hhas. cbv zeta. rewrite (POST_leave_present toString s playerId Hhas).
  cbn [fst snd gameState with_world GameState.players GameState.food
       GameState.lastUpdate].
  split; [reflexivity|]. split; [apply Map_get_delete_same|].
  split; [intros other Hother; apply Map_get_delete_other; congruence|].
  split; [reflexivity|]. split; [reflexivity|].
  apply POST_leave_absent. unfold Map_has.
  cbn [gameState with_world GameState.players].
  now rewrite Map_get_delete_same.
Qed.

(** X8: a join under an id that is not taken appends the new player
    after the players that are there, who are not touched.  The new
    player has the given id and name, score 0, the time of the request as
    last activity and, with [Math.random()] in [[0, 1)], a position inside
    [0, 780] x [0, 580] and a colour of the player palette.  A pool that
    holds items is left alone; an empty pool holds 50 items afterwards. *)
Theorem join_appends_a_new_player s playerId username :
  Map_has playerId (GameState.players (gameState s)) = false ->
  fair (entropy s) ->
  let out := POST toString (Some (join playerId username)) s in
  let g := gameState s in
  let g' := gameState (snd out) in
  exists newPlayer,
    fst out = Joined newPlayer
    /\ GameState.players g' = GameState.players g ++ [(playerId, newPlayer)]
    /\ Player.id newPlayer = playerId
    /\ Player.username newPlayer = username
    /\ Player.score newPlayer = 0
    /\ Player.lastUpdate newPlayer = next_now s
    /\ in_field newPlayer
    /\ In (Player.color newPlayer) playerColors
    /\ GameState.lastUpdate g' = next_now s
    /\ match GameState.food g with
       | [] => List.length (GameState.food g') = FOOD_COUNT
       | _ :: _ => GameState.food g' = GameState.food g
       end.
Proof.
  intros Hhas Hfair. cbv zeta. rewrite POST_join. cbv zeta.
  eexists. cbn [fst snd gameState GameState.players GameState.food
                GameState.lastUpdate].
  split; [reflexivity|].
  rewrite initializeFood_players, initializeFood_food, initializeFood_entropy.
  change (entropy (ticked s)) with (entropy s).
  change (GameState.food (gameState (ticked s)))
    with (GameState.food (gameState s)).
  split; [now apply Map_set_absent|].
  do 4 (split; [reflexivity|]).
  unfold in_field. cbn [Player.x Player.y Player.color].
  split; [split|split; [|split]].
  - apply (scaled_within _ 780); [apply Hfair | lia].
  - apply (scaled_within _ 580); [apply Hfair | lia].
  - apply pick_In; [discriminate | apply Hfair].
  - reflexivity.
  - destruct (GameState.food (gameState s)); [|reflexivity].
    apply Array_from_length.
Qed.

(** X9: a player who joins under a free id and leaves again is gone
    without a trace in the player map: the players are those from before
    the join, in the same order. *)
Theorem join_then_leave_restores_the_players s playerId username :
  Map_has playerId (GameState.players (gameState s)) = false ->
  let joined := snd (POST toString (Some (join playerId username)) s) in
  let left := snd (POST toString (Some (leave playerId)) joined) in
  Map_has playerId (GameState.players (gameState joined)) = true
  /\ GameState.players (gameState left) = GameState.players (gameState s)
  /\ GameState.food (gameState left) = GameState.food (gameState joined).
Proof.
  intros Hhas. cbv zeta.
  set (joined := snd (POST toString (Some (join playerId username)) s)).
  assert (Hplayers : exists p,
            GameState.players (gameState joined)
            = GameState.players (gameState s) ++ [(playerId, p)]).
  { unfold joined. rewrite POST_join. cbv zeta.
    cbn [snd gameState GameState.players].
    rewrite initializeFood_players. eexists. now apply Map_set_absent. }
  destruct Hplayers as [p Hp].
  assert (Hin : Map_has playerId (GameState.players (gameState joined)) = true).
  { unfold joined. rewrite POST_join. cbv zeta.
    cbn [snd gameState GameState.players].
    unfold Map_has. now rewrite Map_get_set_same. }
  split; [exact Hin|].
  rewrite (POST_leave_present toString joined playerId Hin).
  cbn [snd gameState with_world GameState.players GameState.food].
  split; [|reflexivity].
  rewrite Hp. unfold Map_delete. rewrite filter_app.
  fold (Map_delete playerId (GameState.players (gameState s))).
  rewrite (Map_delete_absent _ _ Hhas).
  cbn [filter fst]. rewrite String.eqb_refl. cbn [negb]. apply app_nil_r.
Qed.

End Requests.

(** X6 on the world of two players: a move for an id that nobody has,
    and the body null. *)
Lemma request_without_effect_witness :
  let s := two_players_moving in
  let out := POST digits (Some (move "zed" (Num 1) (Num 2))) s in
  let out' := POST digits (Some null) s in
  (gameState (snd out) = gameState s /\ fst out = Success true)
  /\ (gameState (snd out') = gameState s
      /\ fst out' = Failed "Internal server error" 500
      /\ ticks (snd out') = S (ticks s)).
Proof.
  cbv zeta. split.
  - destruct (request_without_effect_changes_nothing digits
                (Some (move "zed" (Num 1) (Num 2))) two_players_moving)
      as (Hworld & Hans & _).
    + vm_compute. reflexivity.
    + intros playerId H. discriminate H.
    + split; [exact Hworld | exact Hans].
  - apply (request_without_effect_changes_nothing digits (Some null)
             two_players_moving).
    + reflexivity.
    + intros playerId H. discriminate H.
Defined.

(** X7 on the world of two players: player b leaves. *)
Lemma leave_witness :
  let s := two_players_moving in
  let out := POST digits (Some (leave "b")) s in
  Map_has "b" (GameState.players (gameState s)) = true
  /\ Map_get "b" (GameState.players (gameState (snd out))) = None
  /\ GameState.lastUpdate (gameState (snd out)) = 4000.
Proof.
  cbv zeta.
  assert (Hb : Map_has "b" (GameState.players (gameState two_players_moving)) = true)
    by (vm_compute; reflexivity).
  destruct (leave_removes_that_player_once digits two_players_moving "b" Hb)
    as (_ & Hgone & _ & _ & Htoken & _).
  split; [exact Hb|]. split; [exact Hgone|].
  rewrite Htoken. vm_compute. reflexivity.
Defined.

(** X8 on the world of two players: a third player joins. *)
Lemma join_appends_witness :
  let s := two_players_moving in
  let out := POST digits (Some (join "c" "cyd")) s in
  Map_has "c" (GameState.players (gameState s)) = false
  /\ fair (entropy s)
  /\ Map_keys (GameState.players (gameState (snd out))) = ["a"; "b"; "c"].
Proof.
  cbv zeta.
  assert (Hc : Map_has "c" (GameState.players (gameState two_players_moving)) = false)
    by (vm_compute; reflexivity).
  assert (Hfair : fair (entropy two_players_moving)).
  { unfold two_players_moving, two_players.
    repeat rewrite POST_entropy. exact dice_fair. }
  destruct (join_appends_a_new_player digits two_players_moving "c" "cyd" Hc Hfair)
    as (newPlayer & _ & Hplayers & _).
  split; [exact Hc|]. split; [exact Hfair|].
  rewrite Hplayers. unfold Map_keys. rewrite map_app.
  replace (map fst (GameState.players (gameState two_players_moving)))
    with ["a"; "b"] by (vm_compute; reflexivity).
  reflexivity.
Defined.

(** X9 on the world of two players: the third player joins and leaves
    again. *)
Lemma join_then_leave_witness :
  let s := two_players_moving in
  let joined := snd (POST digits (Some (join "c" "cyd")) s) in
  let left := snd (POST digits (Some (leave "c")) joined) in
  Map_has "c" (GameState.players (gameState s)) = false
  /\ GameState.players (gameState left) = GameState.players (gameState s).
Proof.
  cbv zeta.
  assert (Hc : Map_has "c" (GameState.players (gameState two_players_moving)) = false)
    by (vm_compute; reflexivity).
  destruct (join_then_leave_restores_the_players digits two_players_moving
              "c" "cyd" Hc) as (_ & Hplayers & _).
  split; [exact Hc | exact Hplayers].
Defined.
(** ** Joining under an id that is taken *)

Section Join.

Variable toString : Q -> string.



End Join.



(** ** Staying alive *)

Section Liveness.

Variable toString : Q -> string.

(** A pass that finds nobody stale changes nothing. *)
Lemma cleanupPlayers_nobody_stale s :
  reaps (next_now s) (gameState s) = false ->
  world cleanupPlayers s = gameState s.
Proof.
  intros Hr. rewrite cleanupPlayers_world. cbv zeta. rewrite Hr.
  unfold reaps, Map_values in Hr.
  assert (Hnone : filter (fun kv => stale (next_now s) (snd kv))
                         (GameState.players (gameState s)) = []).
  { induction (GameState.players (gameState s)) as [|[k p] m IH];
      simpl in *; trivial.
    apply orb_false_iff in Hr. destruct Hr as [Hp Hm].
    rewrite Hp. now apply IH. }
  rewrite Hnone. simpl. now destruct (gameState s).
Qed.

(** Where a player stands after one pass of the reaper. *)
Lemma cleanupPlayers_lookup s playerId :
  Map_wf (GameState.players (gameState s)) ->
  Map_get playerId (GameState.players (world cleanupPlayers s))
  = match Map_get playerId (GameState.players (gameState s)) with
    | Some p => if stale (next_now s) p then None else Some p
    | None => None
    end.
Proof.
  intros Hwf. rewrite cleanupPlayers_players by assumption.
  rewrite (Map_get_filter_wf _ (fun p => negb (stale (next_now s) p)))
    by assumption.
  destruct (Map_get playerId _) as [p|]; trivial.
  now destruct (stale (next_now s) p).
Qed.

(** X10: a heartbeat or a move of a present player counts as activity: a
    [GET] that is served no later than 10000 ms after that request finds
    the player in the world and lists the player in its answer. *)
Theorem activity_postpones_eviction s request playerId :
  Map_wf (GameState.players (gameState s)) ->
  Map_has playerId (GameState.players (gameState s)) = true ->
  (request = Some (heartbeat playerId)
   \/ exists mx my, request = Some (move playerId mx my)) ->
  let s1 := snd (POST toString request s) in
  next_now s1 - next_now s <= PLAYER_TIMEOUT ->
  exists p,
    Map_get playerId (GameState.players (gameState (snd (GET s1)))) = Some p
    /\ Player.lastUpdate p = next_now s
    /\ In (publish p) (snap_players (fst (GET s1))).
Proof.
  intros Hwf Hhas Hreq. cbv zeta. intros Hsoon.
  set (s1 := snd (POST toString request s)) in *.
  assert (Hwf1 : Map_wf (GameState.players (gameState s1)))
    by now apply POST_wf.
  assert (Hp : exists p,
            Map_get playerId (GameState.players (gameState s1)) = Some p
            /\ Player.lastUpdate p = next_now s).
  { unfold Map_has in Hhas.
    destruct (Map_get playerId (GameState.players (gameState s)))
      as [player|] eqn:E; [|discriminate].
    unfold s1. destruct Hreq as [->|(mx & my & ->)].
    - rewrite (POST_heartbeat_present _ _ _ _ E).
      eexists. split; [apply Map_get_set_same | reflexivity].
    - rewrite (POST_move_present _ _ _ _ _ _ E).
      eexists. split; [apply Map_get_set_same | reflexivity]. }
  destruct Hp as (p & Hget & Hlast).
  assert (Hlive : stale (next_now s1) p = false).
  { unfold stale. rewrite Hlast, Z.gtb_ltb. now apply Z.ltb_ge. }
  assert (Hstay : Map_get playerId
                    (GameState.players (gameState (snd (GET s1)))) = Some p).
  { change (gameState (snd (GET s1))) with (world cleanupPlayers s1).
    rewrite cleanupPlayers_lookup by assumption. now rewrite Hget, Hlive. }
  exists p. split; [exact Hstay|]. split; [exact Hlast|].
  change (snap_players (fst (GET s1)))
    with (map publish (Map_values (GameState.players (gameState (snd (GET s1)))))).
  apply in_map. apply Map_get_In in Hstay.
  unfold Map_values. now apply (in_map snd _ (playerId, p)).
Qed.

(** X11: asking for the state is no activity.  Through any number of
    [GET] requests the record of a player stays what it was as long as it
    is there, and the first [GET] served more than 10000 ms after the
    player's last activity removes the player. *)
Theorem polling_does_not_postpone_eviction s calls playerId p :
  Map_wf (GameState.players (gameState s)) ->
  Map_get playerId (GameState.players (gameState s)) = Some p ->
  Forall (fun c => c = call_GET) calls ->
  let s' := run toString calls s in
  (Map_get playerId (GameState.players (gameState s')) = Some p
   \/ Map_get playerId (GameState.players (gameState s')) = None)
  /\ (next_now s' - Player.lastUpdate p > PLAYER_TIMEOUT ->
      Map_get playerId (GameState.players (gameState (snd (GET s')))) = None).
Proof.
  intros Hwf Hget Hcalls. cbv zeta.
  assert (Hinv : Map_wf (GameState.players (gameState (run toString calls s)))
                 /\ (Map_get playerId
                       (GameState.players (gameState (run toString calls s)))
                     = Some p
                     \/ Map_get playerId
                          (GameState.players (gameState (run toString calls s)))
                        = None)).
  { apply (run_invariant_on toString (fun c => c = call_GET)
             (fun s0 => Map_wf (GameState.players (gameState s0))
                        /\ (Map_get playerId (GameState.players (gameState s0))
                            = Some p
                            \/ Map_get playerId (GameState.players (gameState s0))
                               = None)));
      [|exact Hcalls|split; [exact Hwf | now left]].
    intros c s0 -> [Hwf0 H0]. unfold step. split; [now apply GET_wf|].
    change (gameState (snd (GET s0))) with (world cleanupPlayers s0).
    rewrite cleanupPlayers_lookup by assumption.
    destruct H0 as [->| ->]; [|now right].
    destruct (stale (next_now s0) p); [now right | now left]. }
  destruct Hinv as [Hwf' H']. split; [exact H'|].
  intros Hlate.
  change (gameState (snd (GET (run toString calls s))))
    with (world cleanupPlayers (run toString calls s)).
  rewrite cleanupPlayers_lookup by assumption.
  destruct H' as [->| ->]; [|reflexivity].
  assert (Hst : stale (next_now (run toString calls s)) p = true).
  { unfold stale. rewrite Z.gtb_ltb. apply Z.ltb_lt. lia. }
  now rewrite Hst.
Qed.

(** X12: after a pass of the reaper nobody in the world is stale at the
    time of that pass.  A second [GET] whose clock reading is not later
    removes nobody, leaves the world as it is and gives the answer of the
    first. *)
Theorem second_pass_finds_nobody s :
  Map_wf (GameState.players (gameState s)) ->
  let s1 := snd (GET s) in
  next_now s1 <= next_now s ->
  reaps (next_now s1) (gameState s1) = false
  /\ gameState (snd (GET s1)) = gameState s1
  /\ fst (GET s1) = fst (GET s).
Proof.
  intros Hwf. cbv zeta. intros Hclock.
  set (s1 := snd (GET s)) in *.
  assert (Hr : reaps (next_now s1) (gameState s1) = false).
  { unfold reaps. destruct (existsb _ _) eqn:E; trivial.
    apply existsb_exists in E. destruct E as (p & Hin & Hst).
    unfold Map_values in Hin. apply in_map_iff in Hin.
    destruct Hin as ([k p'] & Heq & Hin). cbn [snd] in Heq. subst p'.
    change (gameState s1) with (world cleanupPlayers s) in Hin.
    rewrite cleanupPlayers_players in Hin by assumption.
    apply filter_In in Hin. destruct Hin as [_ Hlive]. cbn [snd] in Hlive.
    unfold stale in *. rewrite Z.gtb_ltb in *.
    apply negb_true_iff, Z.ltb_ge in Hlive. apply Z.ltb_lt in Hst. lia. }
  split; [exact Hr|].
  assert (Hsame : gameState (snd (GET s1)) = gameState s1).
  { change (gameState (snd (GET s1))) with (world cleanupPlayers s1).
    now apply cleanupPlayers_nobody_stale. }
  split; [exact Hsame|].
  change (fst (GET s1))
    with (mkSnapshot
            (map publish (Map_values (GameState.players (gameState (snd (GET s1))))))
            (GameState.food (gameState (snd (GET s1))))
            (GameState.lastUpdate (gameState (snd (GET s1))))).
  now rewrite Hsame.
Qed.

End Liveness.

(** Keys are distinct in the world of two players, on any clock. *)
Lemma two_players_wf clk :
  Map_wf (GameState.players (gameState (two_players clk))).
Proof.
  unfold two_players. repeat apply POST_wf. apply boot_wf.
Qed.

(** X10 on the world of two players: player b sends a heartbeat at 4000
    and the next request is served in the same millisecond. *)
Lemma activity_postpones_eviction_witness :
  let s := two_players_moving in
  let s1 := snd (POST digits (Some (heartbeat "b")) s) in
  next_now s1 - next_now s <= PLAYER_TIMEOUT
  /\ exists p,
       Map_get "b" (GameState.players (gameState (snd (GET s1)))) = Some p
       /\ Player.lastUpdate p = next_now s
       /\ In (publish p) (snap_players (fst (GET s1))).
Proof.
  cbv zeta.
  assert (Hsoon : next_now (snd (POST digits (Some (heartbeat "b"))
                                      two_players_moving))
                  - next_now two_players_moving <= PLAYER_TIMEOUT)
    by (vm_compute; discriminate).
  split; [exact Hsoon|].
  apply (activity_postpones_eviction digits two_players_moving
           (Some (heartbeat "b")) "b").
  - apply two_players_wf.
  - vm_compute. reflexivity.
  - left. reflexivity.
  - exact Hsoon.
Defined.

(** X11 on the quiet world: player a, last active at 4000, is still
    there with the same record after two [GET] requests at 13500. *)
Lemma polling_witness :
  let s := two_players_gone_quiet in
  let p := Player.mk "a" "ann" (Num 10) (Num 10) "#FF6B6B" 0 4000 in
  let s' := run digits [call_GET; call_GET] s in
  Map_get "a" (GameState.players (gameState s)) = Some p
  /\ (Map_get "a" (GameState.players (gameState s')) = Some p
      \/ Map_get "a" (GameState.players (gameState s')) = None).
Proof.
  cbv zeta.
  assert (Ha : Map_get "a" (GameState.players (gameState two_players_gone_quiet))
               = Some (Player.mk "a" "ann" (Num 10) (Num 10) "#FF6B6B" 0 4000))
    by (vm_compute; reflexivity).
  split; [exact Ha|].
  apply (polling_does_not_postpone_eviction digits two_players_gone_quiet
           [call_GET; call_GET] "a" _ (two_players_wf quiet_clock) Ha).
  repeat constructor.
Defined.

(** X12 on the quiet world: two [GET] requests at 13500. *)
Lemma second_pass_witness :
  let s := two_players_gone_quiet in
  let s1 := snd (GET s) in
  next_now s1 <= next_now s
  /\ gameState (snd (GET s1)) = gameState s1
  /\ fst (GET s1) = fst (GET s).
Proof.
  cbv zeta.
  assert (Hclock : next_now (snd (GET two_players_gone_quiet))
                   <= next_now two_players_gone_quiet)
    by (vm_compute; discriminate).
  split; [exact Hclock|].
  apply (second_pass_finds_nobody two_players_gone_quiet
           (two_players_wf quiet_clock) Hclock).
Defined.

(** ** Scores *)

Section Scores.

Variable toString : Q -> string.

(** X13: one request changes the score of a player who is there before
    and after it by 0 or by +1, unless the request is a join under that
    player's own id (which starts the score again at 0). *)
Theorem score_never_drops_without_rejoin c s playerId p p' :
  Map_wf (GameState.players (gameState s)) ->
  Map_get playerId (GameState.players (gameState s)) = Some p ->
  Map_get playerId (GameState.players (gameState (step toString c s))) = Some p' ->
  (forall username, c <> call_POST (Some (join playerId username))) ->
  Player.score p' = Player.score p \/ Player.score p' = Player.score p + 1.
Proof.
  intros Hwf Hp Hp' Hjoin.
  assert (Hset : forall id v,
            Map_get playerId (Map_set id v (GameState.players (gameState s)))
            = Some p' ->
            (id = playerId /\ v = p') \/ (id <> playerId /\ p' = p)).
  { intros id v H. destruct (string_dec id playerId) as [->|Hne].
    - rewrite Map_get_set_same in H. left. split; congruence.
    - rewrite Map_get_set_other in H by assumption. right. split; congruence. }
  destruct c as [|request]; unfold step in Hp'.
  - change (gameState (snd (GET s))) with (world cleanupPlayers s) in Hp'.
    rewrite cleanupPlayers_lookup, Hp in Hp' by assumption.
    destruct (stale (next_now s) p); [discriminate|]. left. congruence.
  - revert Hp'. post_cases toString request s; intros Hp';
      try (left; congruence).
    + rewrite initializeFood_players in Hp'.
      destruct (Hset _ _ Hp') as [[-> _]|[_ ->]]; [|now left].
      exfalso. now apply (Hjoin name).
    + destruct (Hset _ _ Hp') as [[-> <-]|[_ ->]]; [|now left].
      left. cbn. congruence.
    + destruct (Hset _ _ Hp') as [[-> <-]|[_ ->]]; [|now left].
      right. cbn. congruence.
    + destruct (Hset _ _ Hp') as [[-> <-]|[_ ->]]; [|now left].
      left. cbn. congruence.
    + destruct (string_dec id playerId) as [->|Hne].
      * rewrite Map_get_delete_same in Hp'. discriminate.
      * rewrite Map_get_delete_other in Hp' by assumption. left. congruence.
Qed.

End Scores.

(** X13 on the world of two players: player a collects an item. *)
Lemma score_witness :
  let s := two_players_moving in
  let c := call_POST (Some (collectFood "a" "food-2000-8/97")) in
  let p := Player.mk "a" "ann" (Num 10) (Num 10) "#FF6B6B" 0 4000 in
  let p' := Player.mk "a" "ann" (Num 10) (Num 10) "#FF6B6B" 1 4000 in
  Map_get "a" (GameState.players (gameState s)) = Some p
  /\ Map_get "a" (GameState.players (gameState (step digits c s))) = Some p'
  /\ (Player.score p' = Player.score p \/ Player.score p' = Player.score p + 1).
Proof.
  cbv zeta.
  assert (Ha : Map_get "a" (GameState.players (gameState two_players_moving))
               = Some (Player.mk "a" "ann" (Num 10) (Num 10) "#FF6B6B" 0 4000))
    by (vm_compute; reflexivity).
  assert (Ha' : Map_get "a"
                  (GameState.players
                     (gameState (step digits
                        (call_POST (Some (collectFood "a" "food-2000-8/97")))
                        two_players_moving)))
                = Some (Player.mk "a" "ann" (Num 10) (Num 10) "#FF6B6B" 1 4000))
    by (vm_compute; reflexivity).
  split; [exact Ha|]. split; [exact Ha'|].
  apply (score_never_drops_without_rejoin digits _ two_players_moving "a" _ _
           (two_players_wf same_millisecond) Ha Ha').
  intros username H. discriminate H.
Defined.

(** * Further properties of the client *)

(** ** One frame of movement *)

(** One axis of [gameLoop]: the coordinate goes down by [speed] but not
    below 0 if the first key is held, then up by [speed] but not above
    [limit] if the second is.  It stays inside the interval and does not
    go against the keys. *)
Lemma axis_step (v limit speed : Q) (dec inc : bool) :
  (0 <= speed)%Q -> (0 <= v)%Q -> (v <= limit)%Q ->
  let v1 := if dec then Qmax 0 (v - speed) else v in
  let v2 := if inc then Qmin limit (v1 + speed) else v1 in
  (0 <= v2 /\ v2 <= limit)%Q
  /\ (dec = false -> (v <= v2)%Q)
  /\ (inc = false -> (v2 <= v)%Q).
Proof.
  intros Hs H0 Hl. cbv zeta.
  destruct dec, inc;
    repeat match goal with
    | |- context [Qmax ?a ?b] =>
        let H1 := fresh in let H2 := fresh in
        destruct (Q.max_spec a b) as [[H1 H2]|[H1 H2]];
        revert H1; rewrite H2; intros H1; clear H2
    | |- context [Qmin ?a ?b] =>
        let H1 := fresh in let H2 := fresh in
        destruct (Q.min_spec a b) as [[H1 H2]|[H1 H2]];
        revert H1; rewrite H2; intros H1; clear H2
    end;
    repeat split; try discriminate; intros; lra.
Qed.

Section Frame.

Import Client.

(** A frame of a client whose local player [p] stands inside the field
    either changes nothing or moves [p] to a position inside the field,
    not against the keys, shows it, records it and queues it. *)
Lemma gameLoop_moves (c : Client.t) (p : Player) :
  Map_get (myPlayerId c) (players c) = Some p ->
  (0 <= x p /\ x p <= 780)%Q -> (0 <= y p /\ y p <= 580)%Q ->
  fst (gameLoop c) = c
  \/ exists nx ny,
       ((0 <= nx /\ nx <= 780)%Q
        /\ (pressed "a" c || pressed "arrowleft" c = false -> (x p <= nx)%Q)
        /\ (pressed "d" c || pressed "arrowright" c = false -> (nx <= x p)%Q))
       /\ ((0 <= ny /\ ny <= 580)%Q
           /\ (pressed "w" c || pressed "arrowup" c = false -> (y p <= ny)%Q)
           /\ (pressed "s" c || pressed "arrowdown" c = false -> (ny <= y p)%Q))
       /\ Map_get (myPlayerId c) (players (fst (gameLoop c)))
          = Some (mkPlayer (id p) (username p) nx ny (color p) (score p))
       /\ movementQueueRef (fst (gameLoop c)) = Some (nx, ny)
       /\ lastPositionRef (fst (gameLoop c)) = (nx, ny).
Proof.
  intros Hp [Hx0 Hx1] [Hy0 Hy1]. unfold gameLoop. rewrite Hp.
  destruct (gameState c); try (left; reflexivity).
  destruct (String.eqb (myPlayerId c) ""); try (left; reflexivity).
  cbv zeta. cbn [fst].
  set (up := pressed "w" c || pressed "arrowup" c).
  set (down := pressed "s" c || pressed "arrowdown" c).
  set (left_ := pressed "a" c || pressed "arrowleft" c).
  set (right_ := pressed "d" c || pressed "arrowright" c).
  match goal with |- context [if ?b then _ else c] => destruct b end;
    [|left; reflexivity].
  right. eexists. eexists.
  split; [|split; [|split; [apply Map_get_set_same | split; reflexivity]]].
  - apply (axis_step (x p) 780 3 left_ right_); lra.
  - apply (axis_step (y p) 580 3 up down); lra.
Qed.

(** X14: a frame keeps a local player who stands inside
    [0, 780] x [0, 580] inside it, whatever keys are held, and does not
    move the player against the keys: without a key for left the player
    is not further left afterwards, and so for right, up and down, so
    that a player with no key of an axis held keeps that coordinate.
    Name, colour and score are not touched.  The pending move is either
    the one from before the frame or the position that the frame
    shows. *)
Theorem frame_keeps_the_player_in_the_field (c : Client.t) (p : Player) :
  Map_get (myPlayerId c) (players c) = Some p ->
  (0 <= x p /\ x p <= 780)%Q -> (0 <= y p /\ y p <= 580)%Q ->
  let c' := fst (gameLoop c) in
  exists p',
    Map_get (myPlayerId c) (players c') = Some p'
    /\ (0 <= x p' /\ x p' <= 780)%Q /\ (0 <= y p' /\ y p' <= 580)%Q
    /\ (pressed "a" c || pressed "arrowleft" c = false -> (x p <= x p')%Q)
    /\ (pressed "d" c || pressed "arrowright" c = false -> (x p' <= x p)%Q)
    /\ (pressed "w" c || pressed "arrowup" c = false -> (y p <= y p')%Q)
    /\ (pressed "s" c || pressed "arrowdown" c = false -> (y p' <= y p)%Q)
    /\ id p' = id p /\ username p' = username p
    /\ color p' = color p /\ score p' = score p
    /\ (movementQueueRef c' = movementQueueRef c
        \/ movementQueueRef c' = Some (x p', y p')).
Proof.
  intros Hp Hx Hy. cbv zeta.
  destruct (gameLoop_moves c p Hp Hx Hy)
    as [->|(nx & ny & Hnx & Hny & Hget & Hq & _)].
  - exists p. repeat split; first [tauto | intros; lra].
  - eexists. split; [exact Hget|]. cbn [x y id username color score].
    repeat split; tauto.
Qed.

(** X15: with none of the eight movement keys held a frame leaves the
    client as it is: nothing is shown differently and nothing is
    queued. *)
Theorem idle_frame_changes_nothing (c : Client.t) :
  (forall k, In k movementKeys -> pressed k c = false) ->
  fst (gameLoop c) = c.
Proof.
  intros Hkeys. unfold gameLoop.
  destruct (gameState c); try reflexivity.
  destruct (String.eqb (myPlayerId c) ""); try reflexivity.
  destruct (Map_get (myPlayerId c) (players c)); try reflexivity.
  cbv zeta.
  repeat (rewrite Hkeys by (unfold movementKeys; simpl; tauto)).
  reflexivity.
Qed.

(** X16: a player at the right edge who holds only the key for "right",
    and whose position is the one last recorded, is not moved and queues
    nothing: leaning on the wall sends no moves. *)
Theorem leaning_on_the_wall_queues_nothing (c : Client.t) (p : Player) :
  Map_get (myPlayerId c) (players c) = Some p ->
  (x p == 780)%Q ->
  (fst (lastPositionRef c) == x p)%Q -> (snd (lastPositionRef c) == y p)%Q ->
  pressed "d" c || pressed "arrowright" c = true ->
  pressed "w" c || pressed "arrowup" c = false ->
  pressed "s" c || pressed "arrowdown" c = false ->
  pressed "a" c || pressed "arrowleft" c = false ->
  fst (gameLoop c) = c.
Proof.
  intros Hp Hx Hlx Hly Hr Hu Hd Hl. unfold gameLoop. rewrite Hp.
  destruct (gameState c); try reflexivity.
  destruct (String.eqb (myPlayerId c) ""); try reflexivity.
  cbv zeta. rewrite Hr, Hu, Hd, Hl. cbn [orb andb fst].
  assert (Hnx : (Qmin (inject_Z (CANVAS_WIDTH - PLAYER_SIZE))
                      (x p + inject_Z MOVE_SPEED) == fst (lastPositionRef c))%Q).
  { destruct (Q.min_spec (inject_Z (CANVAS_WIDTH - PLAYER_SIZE))
                         (x p + inject_Z MOVE_SPEED)) as [[H1 H2]|[H1 H2]];
      rewrite H2, Hlx, Hx.
    - reflexivity.
    - exfalso. revert H1. rewrite Hx.
      change (inject_Z (CANVAS_WIDTH - PLAYER_SIZE)) with 780%Q.
      change (inject_Z MOVE_SPEED) with 3%Q. lra. }
  unfold differs.
  rewrite (Qeq_eq_bool _ _ Hnx).
  rewrite (Qeq_eq_bool (y p) (snd (lastPositionRef c))) by now symmetry.
  reflexivity.
Qed.

End Frame.

(** X14 on the client of the scenario: one frame with d held moves the
    player from (2, 5) to the right, inside the field, on the same
    height. *)
Lemma frame_witness :
  let c := client_holding_d in
  let p := Client.mkPlayer "a" "ann" 2 5 "#FF6B6B" 0 in
  Map_get (Client.myPlayerId c) (Client.players c) = Some p
  /\ exists p',
       Map_get (Client.myPlayerId c) (Client.players (fst (Client.gameLoop c)))
       = Some p'
       /\ (2 <= Client.x p' /\ Client.x p' <= 780)%Q
       /\ (Client.y p' == 5)%Q.
Proof.
  cbv zeta.
  assert (Hp : Map_get (Client.myPlayerId client_holding_d)
                       (Client.players client_holding_d)
               = Some (Client.mkPlayer "a" "ann" 2 5 "#FF6B6B" 0))
    by reflexivity.
  split; [exact Hp|].
  destruct (frame_keeps_the_player_in_the_field client_holding_d _ Hp)
    as (p' & Hget & Hx & Hy & Hleft & _ & Hup & Hdown & _).
  - cbn. lra.
  - cbn. lra.
  - exists p'. split; [exact Hget|].
    specialize (Hleft eq_refl). specialize (Hup eq_refl).
    specialize (Hdown eq_refl). cbn [Client.x Client.y] in Hleft, Hup, Hdown.
    split; [split; [exact Hleft | apply Hx]|]. lra.
Defined.

(** X15 on the client of the scenario with the key released. *)
Lemma idle_frame_witness :
  let c := set_keysRef [] client_holding_d in
  fst (Client.gameLoop c) = c.
Proof.
  apply (idle_frame_changes_nothing (set_keysRef [] client_holding_d)).
  intros k _. reflexivity.
Defined.

(** X16 on the client at the wall. *)
Lemma leaning_on_the_wall_witness :
  fst (Client.gameLoop client_at_the_wall) = client_at_the_wall.
Proof.
  apply (leaning_on_the_wall_queues_nothing client_at_the_wall
           (Client.mkPlayer "a" "ann" 780 5 "#FF6B6B" 0));
    reflexivity.
Defined.

(** ** The clamp of the route and the prediction of the client *)

(** X17: clamping twice is clamping once, for every value, and a
    coordinate that already lies between 0 and the limit comes out of the
    clamp with the value it had. *)
Theorem clamp_settles (limit : Z) :
  (forall v, clamp limit (clamp limit v) = clamp limit v)
  /\ (forall q, (0 <= q)%Q -> (q <= inject_Z limit)%Q ->
        has_value (clamp limit (Num q)) q).
Proof.
  split; [|intros q; apply clamp_keeps_inside].
  intros v. unfold clamp.
  destruct v as [q| | |]; qle_cases; try reflexivity; try (exfalso; lra).
  all: assert (Hz : limit = 0)
         by (apply Z.le_antisymm; rewrite Zle_Qle; assumption).
  all: now subst limit.
Qed.

(** X17 on the right edge of the field. *)
Lemma clamp_settles_witness :
  has_value (clamp (CANVAS_WIDTH - PLAYER_SIZE) (Num 780)) 780
  /\ clamp 780 (clamp 780 (Num 1000)) = clamp 780 (Num 1000).
Proof.
  destruct (clamp_settles (CANVAS_WIDTH - PLAYER_SIZE)) as [Hidem Hin].
  split; [apply Hin; unfold Qle; cbn; lia | apply Hidem].
Defined.

Section Prediction.

Variable toString : Q -> string.

(** X18: the client and the route agree on the field.  When a frame
    moves a local player who stood inside the field, the move that it
    queues, once posted for a player whom the route knows, is
    acknowledged and stored with the very coordinates that the client
    shows: the clamp of the route does not correct a predicted
    position. *)
Theorem predicted_move_is_stored_as_shown
        (c : Client.t) (p : Client.Player) (s : Server) :
  Map_get (Client.myPlayerId c) (Client.players c) = Some p ->
  (0 <= Client.x p /\ Client.x p <= 780)%Q ->
  (0 <= Client.y p /\ Client.y p <= 580)%Q ->
  fst (Client.gameLoop c) <> c ->
  Map_has (Client.myPlayerId c) (GameState.players (gameState s)) = true ->
  exists qx qy shown stored,
    Client.movementQueueRef (fst (Client.gameLoop c)) = Some (qx, qy)
    /\ Map_get (Client.myPlayerId c) (Client.players (fst (Client.gameLoop c)))
       = Some shown
    /\ Client.x shown = qx /\ Client.y shown = qy
    /\ let out := POST toString
                    (Some (move (Client.myPlayerId c) (Num qx) (Num qy))) s in
       fst out = Success true
       /\ Map_get (Client.myPlayerId c)
            (GameState.players (gameState (snd out))) = Some stored
       /\ has_value (Player.x stored) qx
       /\ has_value (Player.y stored) qy.
Proof.
  intros Hp Hx Hy Hmoved Hhas.
  destruct (gameLoop_moves c p Hp Hx Hy)
    as [Hsame|(nx & ny & Hnx & Hny & Hget & Hq & _)]; [contradiction|].
  unfold Map_has in Hhas.
  destruct (Map_get (Client.myPlayerId c) (GameState.players (gameState s)))
    as [player|] eqn:E; [|discriminate].
  exists nx, ny. eexists. eexists.
  split; [exact Hq|]. split; [exact Hget|].
  split; [reflexivity|]. split; [reflexivity|].
  cbv zeta. rewrite (POST_move_present _ _ _ _ _ _ E).
  split; [reflexivity|].
  split; [apply Map_get_set_same|].
  cbn [Player.x Player.y Player.set_lastUpdate Player.set_y Player.set_x].
  split; apply clamp_keeps_inside; tauto.
Qed.

End Prediction.

(** X18 on the client of the scenario and the world of two players. *)
Lemma predicted_move_witness :
  let c := client_holding_d in
  let out := POST digits (Some (move "a" (Num 5) (Num 5))) two_players_moving in
  Client.movementQueueRef (fst (Client.gameLoop c)) = Some (5, 5)%Q
  /\ fst out = Success true
  /\ option_map Player.x
       (Map_get "a" (GameState.players (gameState (snd out)))) = Some (Num 5).
Proof.
  cbv zeta.
  assert (Hp : Map_get (Client.myPlayerId client_holding_d)
                       (Client.players client_holding_d)
               = Some (Client.mkPlayer "a" "ann" 2 5 "#FF6B6B" 0))
    by reflexivity.
  destruct (predicted_move_is_stored_as_shown digits client_holding_d _
              two_players_moving Hp)
    as (qx & qy & shown & stored & Hq & _ & _ & _ & Hans & _).
  - cbn. lra.
  - cbn. lra.
  - vm_compute. discriminate.
  - vm_compute. reflexivity.
  - split; [vm_compute; reflexivity|].
    split; vm_compute; reflexivity.
Defined.

(** ** Snapshots on the client *)

Section PlayersMap.

Import Client.

Implicit Types (l : list Player) (acc : list (string * Player)).









End PlayersMap.



(** ** The keyboard *)

Section Keys.

Variable toLowerCase : string -> string.

Lemma pressed_set_keysRef k keys c :
  Client.pressed k (set_keysRef keys c) = existsb (String.eqb k) keys.
Proof. reflexivity. Qed.

(** X22: the key handlers keep the set of held keys.  After a key went
    down it is held, under its lower-case name; after it went up it is
    not, however often it went down before; no other key is affected by
    either event; and a key that is held going down again changes
    nothing. *)
Theorem key_release_undoes_key_press (key : string) (c : Client.t) :
  let k := toLowerCase key in
  Client.pressed k (handleKeyDown toLowerCase key c) = true
  /\ Client.pressed k (handleKeyUp toLowerCase key c) = false
  /\ Client.pressed k
       (handleKeyUp toLowerCase key (handleKeyDown toLowerCase key c)) = false
  /\ (forall k', k' <> k ->
        Client.pressed k' (handleKeyDown toLowerCase key c) = Client.pressed k' c
        /\ Client.pressed k' (handleKeyUp toLowerCase key c) = Client.pressed k' c)
  /\ handleKeyDown toLowerCase key (handleKeyDown toLowerCase key c)
     = handleKeyDown toLowerCase key c.
Proof.
  cbv zeta. set (k := toLowerCase key).
  assert (Hup : forall keys,
            existsb (String.eqb k)
                    (filter (fun k' => negb (String.eqb k k')) keys) = false).
  { induction keys as [|a keys IH]; simpl; trivial.
    destruct (String.eqb k a) eqn:E; simpl; trivial. now rewrite E. }
  assert (Hother : forall k' keys, k' <> k ->
            existsb (String.eqb k')
                    (filter (fun k0 => negb (String.eqb k k0)) keys)
            = existsb (String.eqb k') keys).
  { intros k' keys Hne. induction keys as [|a keys IH]; simpl; trivial.
    destruct (String.eqb k a) eqn:E; simpl.
    - apply String.eqb_eq in E. subst a.
      apply String.eqb_neq in Hne. now rewrite Hne.
    - now rewrite IH. }
  assert (Hdown : Client.pressed k (handleKeyDown toLowerCase key c) = true).
  { unfold handleKeyDown. fold k.
    destruct (Client.pressed k c) eqn:E; [exact E|].
    rewrite pressed_set_keysRef, existsb_app. simpl.
    rewrite String.eqb_refl. now rewrite orb_true_r. }
  split; [exact Hdown|].
  split; [unfold handleKeyUp; rewrite pressed_set_keysRef; apply Hup|].
  split; [unfold handleKeyUp; rewrite pressed_set_keysRef; apply Hup|].
  split.
  - intros k' Hne. split.
    + unfold handleKeyDown. fold k.
      destruct (Client.pressed k c); [reflexivity|].
      rewrite pressed_set_keysRef, existsb_app. simpl.
      apply String.eqb_neq in Hne. rewrite Hne. unfold Client.pressed.
      now rewrite !orb_false_r.
    + unfold handleKeyUp. rewrite pressed_set_keysRef. now apply Hother.
  - unfold handleKeyDown at 1. fold k. now rewrite Hdown.
Qed.

End Keys.

(** X22 with the identity as lower-casing: the key d goes down and up. *)
Lemma key_witness :
  let c := set_keysRef [] client_holding_d in
  Client.pressed "d" (handleKeyDown (fun k => k) "d" c) = true
  /\ Client.pressed "d"
       (handleKeyUp (fun k => k) "d" (handleKeyDown (fun k => k) "d" c)) = false.
Proof.
  cbv zeta.
  destruct (key_release_undoes_key_press (fun k => k) "d"
              (set_keysRef [] client_holding_d)) as (Hdown & _ & Hup & _).
  split; [exact Hdown | exact Hup].
Defined.

(** ** The token on a clock that does not run backwards *)

Lemma same_millisecond_monotone : monotone same_millisecond.
Proof.
  intros i j Hij. unfold same_millisecond.
  destruct (Nat.ltb_spec i 1); destruct (Nat.ltb_spec j 1); try lia;
    destruct (Nat.ltb_spec i 52); destruct (Nat.ltb_spec j 52); try lia;
    destruct (Nat.eqb_spec i 52); destruct (Nat.eqb_spec j 52); lia.
Qed.

Section Monotone.

Variable toString : Q -> string.

Lemma initializeFood_ticks s :
  (ticks s <= ticks (snd (initializeFood toString s)))%nat.
Proof.
  unfold initializeFood. generalize FOOD_COUNT. intros n.
  unfold bind, read, modify. cbv zeta. cbn [fst snd].
  destruct (Nat.eqb _ 0); cbn [fst snd ticks ret]; [|lia].
  destruct (Array_from_generateFood_cost toString n s) as [Ht _].
  rewrite Ht. lia.
Qed.

(** Every request that is parsed reads the clock, and none rewinds it or
    replaces it. *)
Lemma POST_clock_advances request s :
  clock (snd (POST toString request s)) = clock s
  /\ (ticks s <= ticks (snd (POST toString request s)))%nat
  /\ (changes (gameState s) request = true ->
      (ticks s < ticks (snd (POST toString request s)))%nat).
Proof.
  post_cases toString request s; cbn [clock ticks];
    try (repeat split; first [reflexivity | lia | discriminate | (cbn; lia)]).
  destruct (initializeFood_frame toString (ticked s)) as (_ & _ & Hclk).
  cbv zeta in Hclk. rewrite Hclk.
  pose proof (initializeFood_ticks (ticked s)) as H.
  change (ticks (ticked s)) with (S (ticks s)) in H.
  repeat split; first [reflexivity | lia].
Qed.

Lemma step_clock_advances c s :
  clock (step toString c s) = clock s
  /\ (ticks s <= ticks (step toString c s))%nat
  /\ (counter (step toString c s) = counter s
      \/ (counter (step toString c s) = next_now s
          /\ (ticks s < ticks (step toString c s))%nat)).
Proof.
  destruct c as [|request]; unfold step.
  - rewrite GET_store, cleanupPlayers_store.
    cbn [clock ticks with_world ticked snd Date_now].
    split; [reflexivity|]. split; [lia|].
    unfold counter. cbn [gameState with_world].
    rewrite cleanupPlayers_counter.
    destruct (reaps _ _); [right; split; [reflexivity | lia] | now left].
  - destruct (POST_clock_advances request s) as (Hc & Ht & Hch).
    split; [exact Hc|]. split; [exact Ht|].
    unfold counter.
    change (gameState (snd (POST toString request s)))
      with (world (POST toString request) s).
    rewrite POST_counter.
    destruct (changes (gameState s) request); [right | now left].
    split; [reflexivity | now apply Hch].
Qed.

(** X23: on a clock that never runs backwards the token never decreases.
    In every reachable world it is one of the readings taken so far, so
    it is not ahead of the clock, and the next request leaves it where it
    is or sets it to a reading that is not earlier. *)
Theorem token_never_decreases clk rnd calls c :
  monotone clk ->
  let s := run toString calls (boot clk rnd) in
  (exists i, (i < ticks s)%nat /\ counter s = clk i)
  /\ counter s <= next_now s
  /\ counter s <= counter (step toString c s).
Proof.
  intros Hmono. cbv zeta.
  assert (Hinv : clock (run toString calls (boot clk rnd)) = clk
                 /\ exists i,
                      (i < ticks (run toString calls (boot clk rnd)))%nat
                      /\ counter (run toString calls (boot clk rnd)) = clk i).
  { apply (run_invariant toString
             (fun s => clock s = clk
                       /\ exists i, (i < ticks s)%nat /\ counter s = clk i)).
    - intros c0 s0 (Hc & i & Hi & Hcount).
      destruct (step_clock_advances c0 s0) as (Hc' & Ht & [Hsame|[Hnow Hlt]]).
      + split; [congruence|]. exists i. split; [lia | congruence].
      + split; [congruence|]. exists (ticks s0). split; [exact Hlt|].
        rewrite Hnow. unfold next_now. now rewrite Hc.
    - split; [reflexivity|]. exists 0%nat. split; [cbn; lia | reflexivity]. }
  destruct Hinv as (Hc & i & Hi & Hcount).
  assert (Hle : counter (run toString calls (boot clk rnd))
                <= next_now (run toString calls (boot clk rnd))).
  { rewrite Hcount. unfold next_now. rewrite Hc. apply Hmono. lia. }
  split; [now exists i|]. split; [exact Hle|].
  destruct (step_clock_advances c (run toString calls (boot clk rnd)))
    as (_ & _ & [Hsame|[Hnow _]]).
  - rewrite Hsame. lia.
  - rewrite Hnow. exact Hle.
Qed.

End Monotone.

(** X23 on the clock of the scenarios: two joins, then a move. *)
Lemma token_never_decreases_witness :
  let calls := [ call_POST (Some (join "a" "ann"));
                 call_POST (Some (join "b" "bob")) ] in
  let c := call_POST (Some (move "a" (Num 10) (Num 10))) in
  let s := run digits calls (boot same_millisecond dice) in
  monotone same_millisecond
  /\ counter s <= counter (step digits c s).
Proof.
  cbv zeta. split; [exact same_millisecond_monotone|].
  apply (token_never_decreases digits same_millisecond dice
           [ call_POST (Some (join "a" "ann"));
             call_POST (Some (join "b" "bob")) ]
           (call_POST (Some (move "a" (Num 10) (Num 10))))
           same_millisecond_monotone).
Defined.

(** X1 on the store that the module leaves when it is loaded. *)
Lemma initializeFood_witness :
  let s := boot same_millisecond dice in
  let s' := snd (initializeFood digits s) in
  fair (entropy s)
  /\ List.length (GameState.food (gameState s')) = FOOD_COUNT
  /\ ticks s' = (ticks s + FOOD_COUNT)%nat
  /\ draws s' = (draws s + 4 * FOOD_COUNT)%nat.
Proof.
  cbv zeta.
  pose proof (initializeFood_fills_an_empty_pool_only digits
                (boot same_millisecond dice) dice_fair) as H.
  cbv zeta in H.
  change (GameState.food (gameState (boot same_millisecond dice)))
    with (@nil Food.t) in H.
  destruct H as (Hlen & _ & Ht & Hd & _).
  split; [exact dice_fair|]. repeat split; assumption.
Defined.

(** * The component and its stale closure *)

Section Closures.

Import Client Component.

Variable trim : string -> string.
Variable toLowerCase : string -> string.

Lemma updateGame_identity capturedId capturedUpdate posted fetched c :
  let c' := fst (updateGame capturedId capturedUpdate posted fetched c) in
  gameState c' = gameState c /\ myPlayerId c' = myPlayerId c.
Proof.
  cbv zeta. unfold updateGame.
  destruct (movementQueueRef c) as [[qx qy]|];
    destruct (String.eqb capturedId ""); cbv zeta;
    destruct posted; cbn [negb];
    destruct fetched as [gameData|];
    try destruct (data_lastUpdate gameData >? capturedUpdate);
    split; reflexivity.
Qed.

(** A run of [updateGame] whose closure holds no id only asks for the
    state, and leaves the slot as it is. *)
Lemma updateGame_empty_closure capturedUpdate posted fetched c :
  let out := updateGame "" capturedUpdate posted fetched c in
  snd out = [get_state]
  /\ movementQueueRef (fst out) = movementQueueRef c.
Proof.
  cbv zeta. unfold updateGame.
  destruct (movementQueueRef c) as [[qx qy]|] eqn:E; cbv zeta;
    cbn [String.eqb];
    destruct fetched as [gameData|];
    try destruct (data_lastUpdate gameData >? capturedUpdate);
    cbn; rewrite ?E; split; reflexivity.
Qed.

Lemma gameLoop_identity c :
  gameState (fst (gameLoop c)) = gameState c
  /\ myPlayerId (fst (gameLoop c)) = myPlayerId c.
Proof.
  unfold gameLoop.
  destruct (gameState c) eqn:G; try (split; [exact G | reflexivity]).
  destruct (String.eqb (myPlayerId c) ""); try (split; [exact G | reflexivity]).
  destruct (Map_get (myPlayerId c) (players c));
    try (split; [exact G | reflexivity]).
  cbv zeta. cbn [fst].
  match goal with |- context [if ?b then _ else c] => destruct b end;
    cbn [gameState myPlayerId]; split; trivial.
Qed.

(** A frame fires collections only. *)
Lemma gameLoop_sends_no_move c : moves (snd (gameLoop c)) = [].
Proof.
  unfold gameLoop.
  destruct (gameState c); try reflexivity.
  destruct (String.eqb (myPlayerId c) ""); try reflexivity.
  destruct (Map_get (myPlayerId c) (players c)); try reflexivity.
  cbv zeta. cbn [snd].
  induction (filter _ (food c)) as [|f l IH]; [reflexivity | exact IH].
Qed.

Lemma moves_app (l l' : list Request) :
  moves (l ++ l') = (moves l ++ moves l')%list.
Proof. unfold moves. apply flat_map_app. Qed.

(** The [startGameUpdates] of a render reads the [myPlayerId] of that
    render. *)
Lemma useCallback_startGameUpdates_id prev c :
  seen_myPlayerId (useCallback_startGameUpdates prev c) = myPlayerId c.
Proof.
  unfold useCallback_startGameUpdates.
  destruct (String.eqb (myPlayerId c) (seen_myPlayerId prev)) eqn:E;
    [|reflexivity].
  apply String.eqb_eq in E. cbn [andb].
  destruct (Z.eqb (lastServerUpdate c) (seen_lastServerUpdate prev));
    [now symmetry | reflexivity].
Qed.

(** A render keeps the invariant when the name is the old one, or when
    the render has no player id. *)
Lemma render_closures c u i (prev : Component.t) :
  closures_without_id prev ->
  (u <> username prev -> myPlayerId c = "") ->
  (forall f, i = Some f -> seen_myPlayerId f = "") ->
  (gameState c = login -> myPlayerId c = "") ->
  closures_without_id (render c u i prev).
Proof.
  intros (H1 & H2 & _ & _ & _) Hu Hi Hlogin.
  unfold closures_without_id, render. cbv zeta.
  cbn [state Component.username memo_connectToGame memo_startGameUpdates
       updateIntervalRef].
  unfold useCallback_connectToGame.
  destruct (String.eqb u (seen_username (memo_connectToGame prev))) eqn:E.
  - apply String.eqb_eq in E.
    split; [exact H1|]. split; [now symmetry|]. split; [exact Hi|].
    split; [exact Hlogin | apply useCallback_startGameUpdates_id].
  - apply String.eqb_neq in E. rewrite H2 in E.
    cbn [seen_startGameUpdates seen_username].
    rewrite useCallback_startGameUpdates_id.
    split; [now apply Hu|]. split; [reflexivity|]. split; [exact Hi|].
    split; [exact Hlogin | reflexivity].
Qed.

(** The side conditions of [render_closures] on a state that is written
    out. *)
Ltac closures_side :=
  trivial;
  first [ discriminate
        | intros; reflexivity
        | let H := fresh in intros H; exfalso; now apply H ].

Lemma mount_closures : closures_without_id mount.
Proof. unfold closures_without_id. cbn. repeat split; trivial. discriminate. Qed.

Lemma connectToGame_closures playerId joined posted fetched k :
  closures_without_id k ->
  closures_without_id
    (fst (connectToGame (memo_connectToGame k) playerId joined posted fetched k)).
Proof.
  intros Hk. pose proof Hk as (H1 & H2 & H3 & H4 & H5).
  unfold connectToGame. cbv zeta. destruct joined; cbn [fst].
  - unfold startGameUpdates. cbn [fst].
    match goal with
    | |- closures_without_id (render _ _ _ ?k1) =>
        assert (Hk1 : closures_without_id k1)
    end.
    { apply render_closures; closures_side. }
    apply render_closures; trivial.
    + intros Hne. exfalso. now apply Hne.
    + intros f Hf. inversion Hf. subst f. exact H1.
    + intros Hlogin. exfalso. revert Hlogin.
      rewrite (proj1 (updateGame_identity _ _ _ _ _)). discriminate.
  - apply render_closures; closures_side.
Qed.

Lemma connectToGame_sends_no_move playerId joined posted fetched k :
  closures_without_id k ->
  moves (snd (connectToGame (memo_connectToGame k)
                            playerId joined posted fetched k)) = [].
Proof.
  intros (H1 & _). unfold connectToGame. cbv zeta.
  destruct joined; [|reflexivity].
  cbn [snd startGameUpdates]. rewrite H1.
  change (moves (post_join ?a ?b :: ?l)) with (moves l).
  apply updateGame_sends_pending.
Qed.

Lemma handle_closures e k :
  closures_without_id k ->
  closures_without_id (fst (handle trim toLowerCase e k)).
Proof.
  intros Hk. pose proof Hk as (H1 & H2 & H3 & H4 & H5).
  unfold handle.
  destruct e as [value|playerId joined posted fetched
                 |playerId joined posted fetched| |key|key| |posted fetched].
  - destruct (gameState (state k)) eqn:G; trivial. cbn [fst].
    apply render_closures; trivial; intros _; now apply H4.
  - destruct (gameState (state k)) eqn:G; trivial.
    unfold handleJoinGame.
    destruct (String.eqb (trim (username k)) ""); trivial.
    now apply connectToGame_closures.
  - destruct (gameState (state k)) eqn:G; trivial.
    now apply connectToGame_closures.
  - assert (Hleave : closures_without_id (fst (handleLeaveGame k))).
    { unfold handleLeaveGame. cbv zeta. cbn [fst].
      apply render_closures; closures_side. }
    destruct (gameState (state k)); trivial.
  - assert (Hkey : closures_without_id
                     (set_state (handleKeyDown toLowerCase key (state k)) k)).
    { unfold closures_without_id, set_state, handleKeyDown.
      cbn [state Component.username memo_connectToGame memo_startGameUpdates
           updateIntervalRef].
      destruct (pressed (toLowerCase key) (state k)); repeat split; trivial. }
    destruct (gameState (state k)); exact Hkey.
  - assert (Hkey : closures_without_id
                     (set_state (handleKeyUp toLowerCase key (state k)) k)).
    { unfold closures_without_id, set_state, handleKeyUp.
      cbn [state Component.username memo_connectToGame memo_startGameUpdates
           updateIntervalRef].
      repeat split; trivial. }
    destruct (gameState (state k)); exact Hkey.
  - assert (Hframe : closures_without_id
                       (render (fst (gameLoop (state k))) (username k)
                               (updateIntervalRef k) k)).
    { destruct (gameLoop_identity (state k)) as [Hg Hid].
      apply render_closures; trivial.
      - intros Hne. exfalso. now apply Hne.
      - rewrite Hg, Hid. exact H4. }
    destruct (gameState (state k)); exact Hframe.
  - assert (Htick : closures_without_id
              (fst match updateIntervalRef k with
                   | Some f =>
                       let out :=
                         updateGame (seen_myPlayerId f) (seen_lastServerUpdate f)
                                    posted fetched (state k) in
                       (render (fst out) (username k) (updateIntervalRef k) k,
                        snd out)
                   | None => (k, [])
                   end)).
    { destruct (updateIntervalRef k) as [f|] eqn:Hf; trivial.
      cbv zeta. cbn [fst].
      destruct (updateGame_identity (seen_myPlayerId f)
                  (seen_lastServerUpdate f) posted fetched (state k))
        as [Hg Hid].
      apply render_closures; trivial.
      - intros Hne. exfalso. now apply Hne.
      - rewrite Hg, Hid. exact H4. }
    destruct (gameState (state k)); exact Htick.
Qed.

Lemma handle_sends_no_move e k :
  closures_without_id k ->
  moves (snd (handle trim toLowerCase e k)) = [].
Proof.
  intros Hk. pose proof Hk as (H1 & H2 & H3 & H4 & H5).
  unfold handle.
  destruct e as [value|playerId joined posted fetched
                 |playerId joined posted fetched| |key|key| |posted fetched].
  - destruct (gameState (state k)); reflexivity.
  - destruct (gameState (state k)); trivial.
    unfold handleJoinGame.
    destruct (String.eqb (trim (username k)) ""); trivial.
    now apply connectToGame_sends_no_move.
  - destruct (gameState (state k)); trivial.
    now apply connectToGame_sends_no_move.
  - unfold handleLeaveGame. cbv zeta.
    destruct (gameState (state k)); trivial; cbn [snd];
      destruct (String.eqb (myPlayerId (state k)) ""); reflexivity.
  - destruct (gameState (state k)); reflexivity.
  - destruct (gameState (state k)); reflexivity.
  - destruct (gameState (state k)); cbv zeta; cbn [snd];
      apply gameLoop_sends_no_move.
  - assert (Htick : moves
              (snd match updateIntervalRef k with
                   | Some f =>
                       let out :=
                         updateGame (seen_myPlayerId f) (seen_lastServerUpdate f)
                                    posted fetched (state k) in
                       (render (fst out) (username k) (updateIntervalRef k) k,
                        snd out)
                   | None => (k, [])
                   end) = []).
    { destruct (updateIntervalRef k) as [f|] eqn:Hf; trivial.
      cbv zeta. cbn [snd]. rewrite (H3 f eq_refl).
      apply updateGame_sends_pending. }
    destruct (gameState (state k)); exact Htick.
Qed.

Lemma handle_all_closures events k :
  closures_without_id k ->
  closures_without_id (fst (handle_all trim toLowerCase events k)).
Proof.
  revert k. induction events as [|e events IH]; intros k Hk; [exact Hk|].
  cbn [handle_all fst]. apply IH. now apply handle_closures.
Qed.

Lemma handle_all_sends_no_move events k :
  closures_without_id k ->
  moves (snd (handle_all trim toLowerCase events k)) = [].
Proof.
  revert k. induction events as [|e events IH]; intros k Hk; [reflexivity|].
  cbn [handle_all snd]. rewrite moves_app, handle_sends_no_move by assumption.
  apply IH. now apply handle_closures.
Qed.

(** X21: the interval never posts a move.  Whatever happens to the
    component from its first render on (names typed, joins that succeed
    or fail, reconnections, leaves, keys, frames, ticks), the
    [updateGame] that the interval runs was made in a render in which
    [myPlayerId] was the empty string, because [connectToGame] is kept
    across renders for as long as [username] is the same, and with it
    the [startGameUpdates] that it calls.  So no request of the component
    is a move, and a tick asks for the state only and leaves the pending
    move in the slot. *)
Theorem interval_never_posts_a_move (events : list Event) :
  let out := handle_all trim toLowerCase events mount in
  moves (snd out) = []
  /\ (forall f, updateIntervalRef (fst out) = Some f -> seen_myPlayerId f = "")
  /\ (forall posted fetched f,
        updateIntervalRef (fst out) = Some f ->
        let after := handle trim toLowerCase (tick posted fetched) (fst out) in
        snd after = [get_state]
        /\ movementQueueRef (state (fst after))
           = movementQueueRef (state (fst out))).
Proof.
  cbv zeta.
  pose proof (handle_all_closures events mount mount_closures) as Hk.
  split; [apply handle_all_sends_no_move, mount_closures|].
  destruct Hk as (_ & _ & H3 & _).
  split; [exact H3|].
  intros posted fetched f Hf.
  assert (Hstep : handle trim toLowerCase (tick posted fetched)
                       (fst (handle_all trim toLowerCase events mount))
                  = let k := fst (handle_all trim toLowerCase events mount) in
                    let out := updateGame "" (seen_lastServerUpdate f)
                                          posted fetched (state k) in
                    (render (fst out) (username k) (updateIntervalRef k) k,
                     snd out)).
  { unfold handle. rewrite Hf. rewrite (H3 f Hf).
    now destruct (gameState (state (fst (handle_all trim toLowerCase events mount)))). }
  rewrite Hstep. cbv zeta. cbn [fst snd render state].
  apply updateGame_empty_closure.
Qed.

End Closures.

(** ** The scenario of the two queued moves *)

(** The session leaves the client of the scenario: player a at (2, 5)
    with the key d held. *)
Lemma component_holding_d_state :
  Component.state component_holding_d = client_holding_d.
Proof. vm_compute. reflexivity. Qed.

Lemma component_holding_d_closures : closures_without_id component_holding_d.
Proof. apply handle_all_closures, mount_closures. Qed.

(** C9: the session of the scenario, in which the user has joined as
    player a, stands at (2, 5) and holds the key d.  Two frames pass
    between two ticks.  The first puts the move to (5, 5) into the slot
    and the second overwrites it with the move to (8, 5): the slot holds
    one record, the latest.  But the [updateGame] that the interval runs
    was made in the first render, in which [myPlayerId] was the empty
    string, although the component itself holds the id a.  So the tick,
    whatever the server answers, only asks for the state; the move to
    (8, 5) stays in the slot, and no request that the component makes
    from then on is a move. *)
Theorem latest_move_is_queued_but_never_sent :
  let trim := fun u : string => u in
  let toLowerCase := fun key : string => key in
  let k0 := component_holding_d in
  let k1 := fst (Component.handle trim toLowerCase Component.frame k0) in
  let k2 := fst (Component.handle trim toLowerCase Component.frame k1) in
  pending (Component.state k0) = []
  /\ pending (Component.state k1) = [(5, 5)%Q]
  /\ pending (Component.state k2) = [(8, 5)%Q]
  /\ Client.myPlayerId (Component.state k2) = "a"
  /\ Component.updateIntervalRef k2
     = Some (Component.mkStartGameUpdates "" 0)
  /\ (forall posted fetched,
        let out :=
          Component.handle trim toLowerCase (Component.tick posted fetched) k2 in
        snd out = [Client.get_state]
        /\ Client.moves (snd out) = []
        /\ pending (Component.state (fst out)) = [(8, 5)%Q])
  /\ (forall events,
        Client.moves (snd (Component.handle_all trim toLowerCase events k2)) = []).
Proof.
  cbv zeta.
  set (k2 := fst (Component.handle (fun u : string => u) (fun key : string => key)
                    Component.frame
                    (fst (Component.handle (fun u : string => u)
                            (fun key : string => key)
                            Component.frame component_holding_d)))).
  assert (Hq : Client.movementQueueRef (Component.state k2) = Some (8, 5)%Q)
    by (vm_compute; reflexivity).
  assert (Hi : Component.updateIntervalRef k2
               = Some (Component.mkStartGameUpdates "" 0))
    by (vm_compute; reflexivity).
  split; [vm_compute; reflexivity|].
  split; [vm_compute; reflexivity|].
  split; [unfold pending; now rewrite Hq|].
  split; [vm_compute; reflexivity|].
  split; [exact Hi|].
  split.
  - intros posted fetched.
    assert (Hstep :
      Component.handle (fun u : string => u) (fun key : string => key)
                     (Component.tick posted fetched) k2
      = let out := Client.updateGame "" 0 posted fetched (Component.state k2) in
        (Component.render (fst out) (Component.username k2)
                          (Component.updateIntervalRef k2) k2, snd out)).
    { unfold Component.handle. rewrite Hi.
      now destruct (Client.gameState (Component.state k2)). }
    rewrite Hstep. cbv zeta. cbn [fst snd Component.render Component.state].
    destruct (updateGame_empty_closure 0 posted fetched (Component.state k2))
      as [Hsent Hslot].
    cbv zeta in Hsent, Hslot. rewrite Hsent.
    split; [reflexivity|]. split; [reflexivity|].
    unfold pending. now rewrite Hslot, Hq.
  - intros events. apply handle_all_sends_no_move.
    unfold k2. do 2 apply handle_closures. exact component_holding_d_closures.
Qed.
